(** * SCAN domain knowledge: grammar table, input rewrite and dependency parser

    Shallow embedding of [src/data/scan.py] (class [SCAN]): the class
    attributes that make up the grammar table, [SCAN.transform_input] and
    [SCAN.parse], then the loading of the data ([load_data], [__init__]),
    the methods of the dataset object ([__getitem__], [__len__],
    [filter_by_len], [collate]) and, from [src/trainer/build.py], the
    [Tracker] and [BaseTrainer.log]; followed by the properties proved
    about them.

    Conventions.
    - A Python [str] is a [string], a Python [int] is a [Z], a tuple of ints
      is a [list Z], a position in a list is a [nat].
    - A Python [dict] with string keys is a [gmap string _]; [d[k]] is
      [dict_get d k] and raises [KeyError] on a missing key.
    - A Python [list] read or written by index is a Rocq list with stdpp's
      [!!]; [l[i]] and [l[i] = x] raise [IndexError] out of range
      ([list_get], [list_set]).
    - The two lists [values] and [operators] of [parse] are only ever used
      through [append], [pop], [len] and [[-1]]; they are kept top first, so
      that [append] is [::] and [pop] removes the first element.
    - A call either returns a value or raises: [result] for the parser and
      the rewrite, which raise [KeyError], [IndexError] and
      [AssertionError] only, and [outcome] for the code around them, which
      also raises [ValueError] and [TypeError]. *)

From stdpp Require Import gmap strings list fin_maps pretty.
From Stdlib Require Import ZArith Lia Sorted.

Local Open Scope string_scope.
Local Open Scope list_scope.
Local Open Scope nat_scope.

(** ** Exceptions and results *)

Inductive exn : Type :=
| KeyError
| IndexError
| AssertionError.

Inductive result (A : Type) : Type :=
| Ok (a : A)
| Raise (e : exn).
Arguments Ok {A} a.
Arguments Raise {A} e.

#[global] Instance result_ret : MRet result := λ A a, Ok a.
#[global] Instance result_bind : MBind result := λ A B k r,
  match r with
  | Ok a => k a
  | Raise e => Raise e
  end.

Definition returns {A : Type} (r : result A) : Prop := ∃ a, r = Ok a.

(** [d[k]] on a dict. *)
Definition dict_get {V : Type} (d : gmap string V) (k : string) : result V :=
  match d !! k with
  | Some v => Ok v
  | None => Raise KeyError
  end.

(** [l[i]] for a position [i ≥ 0]. *)
Definition list_get {A : Type} (l : list A) (i : nat) : result A :=
  match l !! i with
  | Some x => Ok x
  | None => Raise IndexError
  end.

(** [l[i] = x] for a position [i ≥ 0]. *)
Definition list_set {A : Type} (l : list A) (i : nat) (x : A) : result (list A) :=
  if decide (i < length l) then Ok (<[i := x]> l) else Raise IndexError.

(** [d.update({x: v for x in keys})]. *)
Definition dict_update {V : Type} (d : gmap string V) (keys : list string) (v : V)
  : gmap string V :=
  foldl (λ acc x, <[x := v]> acc) d keys.

(** ** Grammar table *)

Definition action_word : list string := ["turn"; "walk"; "look"; "run"; "jump"].
Definition dir_word : list string := ["left"; "right"].
Definition turn_times_word : list string := ["opposite"; "around"].
Definition times_word : list string := ["twice"; "thrice"].
Definition connect_word : list string := ["and"; "after"].

Definition vocab : list string :=
  action_word ++ dir_word ++ turn_times_word ++ times_word ++ connect_word.

Definition vocab_output : list string :=
  [EmptyString; "I_WALK"; "I_LOOK"; "I_RUN"; "I_JUMP"; "I_TURN_LEFT"; "I_TURN_RIGHT"].

(** [op2precedence] is built twice in the class body, the second time from
    the empty dict again and with the same updates. *)
Definition op2precedence : gmap string nat :=
  dict_update (dict_update (dict_update (dict_update ∅
    connect_word 1) times_word 2) turn_times_word 3) dir_word 4.

(** An action value: a tuple of action codes. *)
Abbreviation tuple := (list Z).

(** [x * n] on a tuple. *)
Fixpoint tuple_mul (x : tuple) (n : nat) : tuple :=
  match n with
  | O => []
  | S n' => x ++ tuple_mul x n'
  end.

(** The lambdas of [sym2prog], by number of parameters. Only a body that
    indexes its argument can raise. *)
Inductive lambda : Type :=
| Lambda0 (body : result tuple)
| Lambda1 (body : tuple → result tuple)
| Lambda2 (body : tuple → tuple → result tuple).

(** Modelled from the spec: [helper.Program] is imported by [scan.py] but is
    not among the sources. The spec gives every symbol a fixed arity, the
    number of ordered result tuples its semantic function takes: a [Program]
    wraps a function and its [arity] is the number of parameters of that
    function. *)
Record Program : Type := mkProgram { fn : lambda ; arity : nat }.

Definition lambda_params (f : lambda) : nat :=
  match f with
  | Lambda0 _ => 0
  | Lambda1 _ => 1
  | Lambda2 _ => 2
  end.

Definition Program_of (f : lambda) : Program :=
  {| fn := f ; arity := lambda_params f |}.

(** Calling a program on its positional arguments; Python raises a
    [TypeError] on a wrong number of arguments, which no caller modelled here
    triggers, so that case is left undefined ([None]). *)
Definition call (p : Program) (args : list tuple) : option (result tuple) :=
  match fn p, args with
  | Lambda0 body, [] => Some body
  | Lambda1 body, [x] => Some (body x)
  | Lambda2 body, [x; y] => Some (body x y)
  | _, _ => None
  end.

Definition sym2prog : gmap string Program :=
  list_to_map [
    ("turn", Program_of (Lambda0 (Ok [])));
    ("walk", Program_of (Lambda0 (Ok [1%Z])));
    ("look", Program_of (Lambda0 (Ok [2%Z])));
    ("run", Program_of (Lambda0 (Ok [3%Z])));
    ("jump", Program_of (Lambda0 (Ok [4%Z])));

    ("left", Program_of (Lambda1 (λ x, Ok ([5%Z] ++ x))));
    ("right", Program_of (Lambda1 (λ x, Ok ([6%Z] ++ x))));

    ("opposite", Program_of (Lambda1 (λ x, x0 ← list_get x 0; Ok ([x0] ++ x))));
    ("around", Program_of (Lambda1 (λ x, Ok (tuple_mul x 4))));

    ("twice", Program_of (Lambda1 (λ x, Ok (tuple_mul x 2))));
    ("thrice", Program_of (Lambda1 (λ x, Ok (tuple_mul x 3))));

    ("and", Program_of (Lambda2 (λ x y, Ok (x ++ y))));
    ("after", Program_of (Lambda2 (λ x y, Ok (y ++ x))))
  ].

Definition sym2arity : gmap string nat := arity <$> sym2prog.

(** ** The dependency parser: [SCAN.parse] *)

(** [ROOT] is the initial and final content of the head array for a
    position without a head. *)
Definition ROOT : Z := (-1)%Z.

(** [for _ in range(k): head[values.pop()] = op]. *)
Fixpoint pop_assign (k : nat) (op : nat) (head : list Z) (values : list nat)
  : result (list Z * list nat) :=
  match k with
  | O => Ok (head, values)
  | S k' =>
      match values with
      | [] => Raise IndexError
      | v :: values' =>
          head' ← list_set head v (Z.of_nat op);
          pop_assign k' op head' values'
      end
  end.

(** The body shared by the two reduction loops, for the operator [op] that
    was just popped:
    [for _ in range(sym2arity[input[op]]): head[values.pop()] = op]
    then [values.append(op)]. *)
Definition reduce (input : list string) (op : nat) (head : list Z) (values : list nat)
  : result (list Z * list nat) :=
  s ← list_get input op;
  k ← dict_get sym2arity s;
  '(head', values') ← pop_assign k op head values;
  Ok (head', op :: values').

(** [while len(operators) > 0 and
          op2precedence[input[operators[-1]]] >= op2precedence[sym]: ...];
    every iteration pops [operators], which is the decreasing argument. *)
Fixpoint reduce_while (input : list string) (sym : string)
    (head : list Z) (values operators : list nat)
  : result (list Z * list nat * list nat) :=
  match operators with
  | [] => Ok (head, values, [])
  | op :: operators' =>
      s ← list_get input op;
      ptop ← dict_get op2precedence s;
      psym ← dict_get op2precedence sym;
      if decide (psym ≤ ptop) then
        '(head', values') ← reduce input op head values;
        reduce_while input sym head' values' operators'
      else Ok (head, values, operators)
  end.

(** One iteration of [for (i, sym) in enumerate(input)]. *)
Definition scan_step (input : list string) (i : nat) (sym : string)
    (head : list Z) (values operators : list nat)
  : result (list Z * list nat * list nat) :=
  k ← dict_get sym2arity sym;
  if decide (k = 0) then Ok (head, i :: values, operators)
  else
    '(head', values', operators') ← reduce_while input sym head values operators;
    Ok (head', values', i :: operators').

(** The [for] loop over [enumerate(input)]; [rest] is what is left to
    enumerate and [i] the index of its first element. *)
Fixpoint scan (input : list string) (rest : list string) (i : nat)
    (head : list Z) (values operators : list nat)
  : result (list Z * list nat * list nat) :=
  match rest with
  | [] => Ok (head, values, operators)
  | sym :: rest' =>
      '(head', values', operators') ← scan_step input i sym head values operators;
      scan input rest' (S i) head' values' operators'
  end.

(** [while len(operators) > 0: ...] after the scan. *)
Fixpoint drain (input : list string) (head : list Z) (values operators : list nat)
  : result (list Z * list nat) :=
  match operators with
  | [] => Ok (head, values)
  | op :: operators' =>
      '(head', values') ← reduce input op head values;
      drain input head' values' operators'
  end.

(** Everything [parse] does before it looks for the root: the scan and the
    drain of the operator stack. *)
Definition process (input : list string) : result (list Z * list nat) :=
  '(head, values, operators) ← scan input input 0 (replicate (length input) ROOT) [] [];
  drain input head values operators.

(** [root_op = values.pop(); head[root_op] = -1; assert len(values) == 0]. *)
Definition finish (head : list Z) (values : list nat) : result (list Z) :=
  match values with
  | [] => Raise IndexError
  | root_op :: values' =>
      head' ← list_set head root_op ROOT;
      if decide (length values' = 0) then Ok head' else Raise AssertionError
  end.

Definition parse (input : list string) : result (list Z) :=
  '(head, values) ← process input;
  finish head values.

(** ** The input rewrite: [SCAN.transform_input] *)

(** [for i, w in enumerate(input[:])]: [orig] is what is left of the copy
    [input[:]], [i] the index of its first element, [input] the list being
    rewritten in place. *)
Fixpoint transform_loop (orig : list string) (i : nat) (input : list string)
  : result (list string) :=
  match orig with
  | [] => Ok input
  | w :: orig' =>
      if decide (w ∈ turn_times_word) then
        x ← list_get input (i + 1);
        input1 ← list_set input i x;
        input2 ← list_set input1 (i + 1) w;
        transform_loop orig' (S i) input2
      else transform_loop orig' (S i) input
  end.

Definition transform_input (input : list string) : result (list string) :=
  transform_loop input 0 input.

(** ** Semantic functions *)

(** Calling the program of a symbol on a list of positional arguments:
    [sym2prog[w]] applied to [args]. *)
Definition semantics (w : string) (args : list tuple) : option (result tuple) :=
  p ← sym2prog !! w; call p args.

(** The output token an action code stands for: [vocab_output[c]]. *)
Definition output_token (c : Z) : option string :=
  if decide (0 ≤ c)%Z then vocab_output !! Z.to_nat c else None.

(** ** The input rewrite as a recursion over the original tokens *)

(** [swap_from c orig] is what the rewrite leaves from some position [i] on,
    where [orig] is the original input from [i] on and [c] is what the
    working list holds at [i] when the loop reaches it: the original token,
    or the turn-repeat token that the previous iteration moved there. *)
Fixpoint swap_from (c : string) (orig : list string) : result (list string) :=
  match orig with
  | [] => Ok []
  | w :: rest =>
      if decide (w ∈ turn_times_word) then
        match rest with
        | [] => Raise IndexError
        | x :: _ => out ← swap_from w rest; Ok (x :: out)
        end
      else
        match rest with
        | [] => Ok [c]
        | x :: _ => out ← swap_from x rest; Ok (c :: out)
        end
  end.

(** Every turn-repeat token of [t] is immediately followed by one token,
    its argument, which is not itself a turn-repeat token. *)
Definition single_arguments (t : list string) : Prop :=
  ∀ i w, t !! i = Some w → w ∈ turn_times_word →
    ∃ a, t !! S i = Some a ∧ a ∉ turn_times_word.

(** What the rewrite leaves at position [i], read off the original tokens
    at [i - 1], [i] and [i + 1] alone: the argument of a turn-repeat token
    that stood at [i], else the turn-repeat token that stood at [i - 1],
    else the original token. *)
Definition swapped_at (t : list string) (i : nat) : option string :=
  w ← t !! i;
  if decide (w ∈ turn_times_word) then t !! S i
  else
    match i with
    | O => Some w
    | S j => p ← t !! j; if decide (p ∈ turn_times_word) then Some p else Some w
    end.

(** The same for the part of the input that [swap_from] still has to
    rewrite, whose first position holds [c]. *)
Definition swapped_from_at (c : string) (orig : list string) (i : nat)
  : option string :=
  w ← orig !! i;
  if decide (w ∈ turn_times_word) then orig !! S i
  else
    match i with
    | O => Some c
    | S j => p ← orig !! j; if decide (p ∈ turn_times_word) then Some p else Some w
    end.

(** A checker for [single_arguments]. *)
Fixpoint single_argumentsb (t : list string) : bool :=
  match t with
  | [] => true
  | w :: rest =>
      (if decide (w ∈ turn_times_word)
       then match rest with
            | [] => false
            | a :: _ => bool_decide (a ∉ turn_times_word)
            end
       else true) && single_argumentsb rest
  end.

(** The exceptions by which [parse] reports a malformed sequence: a [pop]
    from the empty value stack and the failed final assertion. *)
Definition malformed_sequence_error (e : exn) : Prop :=
  e = IndexError ∨ e = AssertionError.

(** ** Head arrays as graphs *)

(** [reach head c r]: following heads from [c] leads to [r], in zero or more
    child-to-head edges. *)
Inductive reach (head : list Z) : nat → nat → Prop :=
| reach_refl (p : nat) : reach head p p
| reach_step (c p r : nat) :
    head !! c = Some (Z.of_nat p) → reach head p r → reach head c r.

(** [path head n c r]: exactly [n] child-to-head edges lead from [c] to [r]. *)
Inductive path (head : list Z) : nat → nat → nat → Prop :=
| path_O (p : nat) : path head 0 p p
| path_S (n c p r : nat) :
    head !! c = Some (Z.of_nat p) → path head n p r → path head (S n) c r.

(** The positions whose head is [p]. *)
Definition children (head : list Z) (p : nat) : list nat :=
  filter (λ c, head !! c = Some (Z.of_nat p)) (seq 0 (length head)).

(** The head array is a tree over all its positions: one position [r] holds
    ROOT and no other does, every other position has a position as head,
    following heads from any position leads to [r], and no position is
    reached from itself along one or more edges. *)
Definition dependency_tree (head : list Z) : Prop :=
  ∃ r, head !! r = Some ROOT ∧
       (∀ p, head !! p = Some ROOT → p = r) ∧
       (∀ c, c < length head → c ≠ r →
             ∃ p, p < length head ∧ head !! c = Some (Z.of_nat p)) ∧
       (∀ c, c < length head → reach head c r) ∧
       (∀ n c, ¬ path head (S n) c c).

(** ** The invariant of the parser's loops *)

(** The arity of the symbol at position [p]. *)
Definition arity_at (input : list string) (p : nat) : option nat :=
  s ← input !! p; sym2arity !! s.

(** After the positions below [i] have been seen: the positions on the two
    stacks are distinct, below [i] and without a head, as are the positions
    not yet seen; every head is a position below [i]; and from every seen
    position that is not a pending operator, heads lead to a position on
    the value stack. *)
Record forest (input : list string) (i : nat) (head : list Z) (values operators : list nat) : Prop := {
  forest_bound : i ≤ length input;
  forest_len : length head = length input;
  forest_nodup : NoDup (values ++ operators);
  forest_lt : ∀ p, p ∈ values ++ operators → p < i;
  forest_free : ∀ p, p ∈ values ++ operators → head !! p = Some ROOT;
  forest_fresh : ∀ p, i ≤ p → p < length input → head !! p = Some ROOT;
  forest_heads : ∀ c z, head !! c = Some z → z = ROOT ∨ ∃ p, z = Z.of_nat p ∧ p < i;
  forest_reach : ∀ p, p < i → p ∉ operators → ∃ v, v ∈ values ∧ reach head p v
}.

(** Pending operators and unseen positions have no children yet; every
    other position has as many children as its symbol's arity. *)
Record counted (input : list string) (i : nat) (head : list Z) (operators : list nat) : Prop := {
  counted_pending : ∀ p, p ∈ operators ∨ i ≤ p → length (children head p) = 0;
  counted_done : ∀ p, p < i → p ∉ operators →
                      arity_at input p = Some (length (children head p))
}.

(** ** The exceptions [parse] can raise on an input over the vocabulary *)

(** The symbol at position [op] has a precedence. *)
Definition has_precedence (input : list string) (op : nat) : Prop :=
  ∃ s, input !! op = Some s ∧ is_Some (op2precedence !! s).

(** ** Word indices: [i2w], [w2i], [w2i_output] *)

(** [{w: i for i, w in enumerate(l)}], with the enumeration counted from
    [start] and the entries added to [d] from left to right: a later
    occurrence of a word overwrites an earlier one. *)
Fixpoint enumerate_dict_from (start : nat) (l : list string) (d : gmap string nat)
  : gmap string nat :=
  match l with
  | [] => d
  | w :: l' => enumerate_dict_from (S start) l' (<[w := start]> d)
  end.

Definition enumerate_dict (l : list string) : gmap string nat :=
  enumerate_dict_from 0 l ∅.

Definition i2w : list string := vocab.
Definition w2i : gmap string nat := enumerate_dict vocab.
Definition w2i_output : gmap string nat := enumerate_dict vocab_output.

(** ** Further notions about the grammar table and [parse] *)

(** The action codes that stand for an output token other than the empty
    one. *)
Definition action_code (c : Z) : Prop := (1 ≤ c ≤ 6)%Z.

(** The arities of the symbols of [input], added up; a symbol without an
    arity counts 0. *)
Definition total_arity (input : list string) : nat :=
  sum_list_with (λ s, default 0 (sym2arity !! s)) input.

(** Two symbols that [parse] cannot tell apart: it reads a symbol only
    through [sym2arity] and [op2precedence]. *)
Definition same_class (s s' : string) : Prop :=
  sym2arity !! s = sym2arity !! s' ∧ op2precedence !! s = op2precedence !! s'.

(** ** Python values, and the exceptions of the code around the parser *)

(** The values held by the samples and by the tracker: ints, strings and
    lists. *)
#[warnings="-register-all"]
Inductive pyval : Type :=
| PInt (n : Z)
| PStr (s : string)
| PList (l : list pyval).

(** A list of strings and a list of ints as values. *)
Definition py_strs (l : list string) : pyval := PList (PStr <$> l).
Definition py_ints (l : list Z) : pyval := PList (PInt <$> l).

(** Besides the three exceptions of [exn], the code below raises
    [ValueError] (unpacking) and [TypeError] (an operation on a value of the
    wrong type). *)
Inductive exception : Type :=
| Exn (e : exn)
| ValueError
| TypeError.

Inductive outcome (A : Type) : Type :=
| Return (a : A)
| Throw (e : exception).
Arguments Return {A} a.
Arguments Throw {A} e.

#[global] Instance outcome_ret : MRet outcome := λ A a, Return a.
#[global] Instance outcome_bind : MBind outcome := λ A B k r,
  match r with
  | Return a => k a
  | Throw e => Throw e
  end.

Definition lift {A : Type} (r : result A) : outcome A :=
  match r with
  | Ok a => Return a
  | Raise e => Throw (Exn e)
  end.

(** [d[k]] on a dict of values. *)
Definition getitem (d : gmap string pyval) (k : string) : outcome pyval :=
  match d !! k with
  | Some v => Return v
  | None => Throw (Exn KeyError)
  end.

(** [len(v)]. *)
Definition py_len (v : pyval) : outcome Z :=
  match v with
  | PList l => Return (Z.of_nat (length l))
  | PStr s => Return (Z.of_nat (String.length s))
  | PInt _ => Throw TypeError
  end.

(** [l[i]] for an int [i] of either sign. *)
Definition py_index {A : Type} (l : list A) (i : Z) : outcome A :=
  let j := if decide (i < 0)%Z then (i + Z.of_nat (length l))%Z else i in
  if decide (0 ≤ j)%Z then
    match l !! Z.to_nat j with
    | Some x => Return x
    | None => Throw (Exn IndexError)
    end
  else Throw (Exn IndexError).

(** [for x in l: acc.append(f(x))], stopping at the first exception. *)
Fixpoint for_each {A B : Type} (f : A → outcome B) (l : list A) : outcome (list B) :=
  match l with
  | [] => Return []
  | x :: l' => y ← f x; ys ← for_each f l'; Return (y :: ys)
  end.

(** ** Reading the data: [SCAN.load_data] *)

(** A line is a string of characters with codes below 256. *)

(** [s.split(sep)] for a separator of one character. *)
Fixpoint py_split (sep : Ascii.ascii) (s : string) : list string :=
  match s with
  | EmptyString => [EmptyString]
  | String c s' =>
      if decide (c = sep) then EmptyString :: py_split sep s'
      else
        match py_split sep s' with
        | part :: parts => String c part :: parts
        | [] => [String c EmptyString]
        end
  end.

(** [c.isspace()]: tab, line feed, vertical tab, form feed, carriage
    return, the four separators 28 to 31, space, next line (133) and
    no-break space (160). *)
Definition is_space (c : Ascii.ascii) : bool :=
  let n := Ascii.nat_of_ascii c in
  bool_decide (9 ≤ n ≤ 13) || bool_decide (28 ≤ n ≤ 32) ||
  bool_decide (n = 133) || bool_decide (n = 160).

Fixpoint py_lstrip (s : string) : string :=
  match s with
  | EmptyString => EmptyString
  | String c s' => if is_space c then py_lstrip s' else s
  end.

Fixpoint py_rstrip (s : string) : string :=
  match s with
  | EmptyString => EmptyString
  | String c s' =>
      match py_rstrip s' with
      | EmptyString => if is_space c then EmptyString else String c EmptyString
      | r => String c r
      end
  end.

(** [s.strip()]. *)
Definition py_strip (s : string) : string := py_rstrip (py_lstrip s).

(** [s.split()]: the maximal runs of characters that are not white space;
    [cur] is the run being read. *)
Fixpoint py_words_from (cur : string) (s : string) : list string :=
  match s with
  | EmptyString => match cur with EmptyString => [] | _ => [cur] end
  | String c s' =>
      if is_space c then
        match cur with
        | EmptyString => py_words_from EmptyString s'
        | _ => cur :: py_words_from EmptyString s'
        end
      else py_words_from (String.append cur (String c EmptyString)) s'
  end.

Definition py_words (s : string) : list string := py_words_from EmptyString s.

(** [l[:-1]]. *)
Definition drop_last {A : Type} (l : list A) : list A := take (length l - 1) l.

(** The character [':'] and the number of times a character occurs in a
    string. *)
Definition colon : Ascii.ascii := Ascii.ascii_of_nat 58.

Fixpoint occurrences (c : Ascii.ascii) (s : string) : nat :=
  match s with
  | EmptyString => 0
  | String c' s' => (if decide (c' = c) then 1 else 0) + occurrences c s'
  end.

(** The dict [{'input': input, 'head': head, 'output': output}]. *)
Definition sample_dict (input : list string) (head : list Z) (output : list string)
  : gmap string pyval :=
  <["input" := py_strs input]>
    (<["head" := py_ints head]>
      (<["output" := py_strs output]> ∅)).

(** The body of the loop of [load_data] for one line. *)
Definition load_line (line : string) : outcome (gmap string pyval) :=
  match py_split colon line with
  | [_; left_field; right_field] =>
      let command := drop_last (py_words (py_strip left_field)) in
      input ← lift (transform_input command);
      head ← lift (parse input);
      let output := py_words (py_strip right_field) in
      Return (sample_dict input head output)
  | _ => Throw ValueError
  end.

(** [load_data] on the lines that [f.readlines()] returns. *)
Definition load_data (lines : list string) : outcome (list (gmap string pyval)) :=
  for_each load_line lines.

(** ** The dataset object: [__init__], [__getitem__], [__len__],
       [filter_by_len], [collate] *)

(** The two attributes of a [SCAN] object that its methods read. *)
Record SCAN : Type := { dataset : list (gmap string pyval) ; valid_ids : list nat }.

(** [sample['len'] = len(sample['input'])]. *)
Definition set_len (sample : gmap string pyval) : outcome (gmap string pyval) :=
  v ← getitem sample "input";
  n ← py_len v;
  Return (<["len" := PInt n]> sample).

(** The end of [__init__], from [for sample in dataset] on, for the list
    [dataset] that the lines before it have loaded and possibly
    subsampled. *)
Definition init_dataset (loaded : list (gmap string pyval)) : outcome SCAN :=
  samples ← for_each set_len loaded;
  Return {| dataset := samples ; valid_ids := seq 0 (length samples) |}.

(** Every id of [valid_ids] is a position of [dataset]. *)
Definition ids_valid (self : SCAN) : Prop :=
  Forall (λ i, i < length (dataset self)) (valid_ids self).

(** A sample with an int [len] that is not negative. *)
Definition has_len (x : gmap string pyval) : Prop :=
  ∃ n, x !! "len" = Some (PInt n) ∧ (0 ≤ n)%Z.

(** The bounds of [filter_by_len] on a length [n]. *)
Definition within (min_len max_len : option Z) (n : Z) : Prop :=
  (default (-1)%Z min_len ≤ n)%Z ∧
  match max_len with Some m => (n ≤ m)%Z | None => True end.

(** [__len__]. *)
Definition SCAN_len (self : SCAN) : nat := length (valid_ids self).

(** [__getitem__]. *)
Definition SCAN_getitem (self : SCAN) (index : Z) : outcome (gmap string pyval) :=
  index' ← py_index (valid_ids self) index;
  py_index (dataset self) (Z.of_nat index').

(** [n <= max_len and n >= min_len], after [None] has been replaced by
    [float('inf')] and by [-1]. *)
Definition in_range (min_len max_len : option Z) (n : Z) : bool :=
  match max_len with None => true | Some m => bool_decide (n ≤ m)%Z end
  && bool_decide (default (-1)%Z min_len ≤ n)%Z.

(** [x['len'] <= max_len and x['len'] >= min_len], after [None] has been
    replaced by [float('inf')] and by [-1]. *)
Definition len_in_range (min_len max_len : option Z) (x : gmap string pyval)
  : outcome bool :=
  v ← getitem x "len";
  match v with
  | PInt n => Return (in_range min_len max_len n)
  | _ => Throw TypeError
  end.

(** [[i for i, x in enumerate(dataset) if ...]], the enumeration counted
    from [i]. *)
Fixpoint filter_ids (min_len max_len : option Z) (i : nat)
    (samples : list (gmap string pyval)) : outcome (list nat) :=
  match samples with
  | [] => Return []
  | x :: samples' =>
      keep ← len_in_range min_len max_len x;
      ids ← filter_ids min_len max_len (S i) samples';
      Return (if keep : bool then i :: ids else ids)
  end.

(** [filter_by_len]; an exception leaves the object as it was. *)
Definition filter_by_len (self : SCAN) (min_len max_len : option Z) : outcome SCAN :=
  ids ← filter_ids min_len max_len 0 (dataset self);
  Return {| dataset := dataset self ; valid_ids := ids |}.

(** The keys that [collate] reads from every sample, in the order of the
    loop body. *)
Definition collate_keys : list string := ["input"; "sentence"; "head"; "output"; "len"].

(** What one pass of the loop of [collate] appends to the five lists. *)
Definition collate_row (sample : gmap string pyval)
  : outcome (pyval * pyval * pyval * pyval * pyval) :=
  i ← getitem sample "input";
  s ← getitem sample "sentence";
  h ← getitem sample "head";
  o ← getitem sample "output";
  l ← getitem sample "len";
  Return (i, s, h, o, l).

(** [collate]. *)
Definition collate (batch : list (gmap string pyval)) : outcome (gmap string pyval) :=
  rows ← for_each collate_row batch;
  Return (<["input" := PList (map (λ r, r.1.1.1.1) rows)]>
           (<["sentence" := PList (map (λ r, r.1.1.1.2) rows)]>
             (<["head" := PList (map (λ r, r.1.1.2) rows)]>
               (<["output" := PList (map (λ r, r.1.2) rows)]>
                 (<["len" := PList (map (λ r, r.2) rows)]> ∅))))).

(** ** The name of the data file chosen by [__init__] *)

(** An f-string that puts [parts] one after the other. *)
Definition fstring (parts : list string) : string :=
  foldr String.append EmptyString parts.

(** Lines 125 to 136 of [__init__]: the two assertions and the choice of
    the file for a data directory, a subset and a split. *)
Definition dataset_filename (data_dir subset split : string) : result string :=
  if decide (split ∈ ["train"; "val"; "test"]) then
    let split := if decide (split = "val") then "test" else split in
    if decide (subset ∈ ["simple"; "length"]) then
      Ok (fstring [data_dir; "/"; subset; "_split/tasks_"; split; "_"; subset; ".txt"])
    else if decide (subset = "addprim_jump") then
      Ok (fstring [data_dir; "/add_prim_split/tasks_"; split; "_"; subset; ".txt"])
    else if decide (subset = "addprim_turn_left") then
      Ok (fstring [data_dir; "/add_prim_split/tasks_"; split; "_"; subset; ".txt"])
    else if decide (subset = "template_around_right") then
      Ok (fstring [data_dir; "/template_split/tasks_"; split; "_"; subset; ".txt"])
    else Raise AssertionError
  else Raise AssertionError.

(** ** The experiment tracker: [Tracker] in [trainer/build.py] *)

Record Tracker : Type := {
  exp_name : pyval ;
  run_id : pyval ;
  epoch : pyval
}.

(** [state_dict]. *)
Definition Tracker_state_dict (self : Tracker) : gmap string pyval :=
  <["run_id" := run_id self]>
    (<["epoch" := epoch self]>
      (<["exp_name" := exp_name self]> ∅)).

(** [load_state_dict]: the object as the call leaves it, and the exception
    it has raised, if any. The three attributes are assigned one after the
    other. *)
Definition Tracker_load_state_dict (self : Tracker) (state_dict : gmap string pyval)
  : Tracker * option exception :=
  match state_dict !! "run_id" with
  | None => (self, Some (Exn KeyError))
  | Some r =>
      let self1 := {| exp_name := exp_name self ; run_id := r ; epoch := epoch self |} in
      match state_dict !! "epoch" with
      | None => (self1, Some (Exn KeyError))
      | Some e =>
          let self2 := {| exp_name := exp_name self1 ; run_id := run_id self1 ;
                          epoch := e |} in
          match state_dict !! "exp_name" with
          | None => (self2, Some (Exn KeyError))
          | Some n =>
              ({| exp_name := n ; run_id := run_id self2 ; epoch := epoch self2 |},
               None)
          end
      end
  end.

(** ** Subsampling in [__init__] *)

(** [l[:n]] for an int [n] of either sign. *)
Definition py_take {A : Type} (n : Z) (l : list A) : list A :=
  if decide (0 ≤ n)%Z then take (Z.to_nat n) l
  else take (length l - Z.to_nat (- n)) l.

(** Lines 140 to 144 of [__init__], for an [n_sample] that is [None] or an
    int (a float [n_sample], a fraction of the dataset, is outside this
    model): [out] is a dataset that the lines can leave when they start from
    [loaded]. [random.shuffle] leaves the list in some order. *)
Definition subsample {A : Type} (n_sample : option Z) (loaded out : list A) : Prop :=
  match n_sample with
  | None => out = loaded
  | Some n =>
      if decide (n = 0%Z) then out = loaded
      else
        let n' := if decide (n ≤ 1)%Z then (Z.of_nat (length loaded) * n)%Z else n in
        ∃ shuffled, shuffled ≡ₚ loaded ∧ out = py_take n' shuffled
  end.

(** ** Logging: [BaseTrainer.log] in [trainer/build.py] *)

(** [for key, val in results.items(): log_dict[f"{mode}/{key}"] = val], for
    the items of [results] in the order of the iteration. *)
Fixpoint log_results {V : Type} (mode : string) (items : list (string * V))
    (log_dict : gmap string V) : gmap string V :=
  match items with
  | [] => log_dict
  | (key, val) :: items' =>
      log_results mode items' (<[fstring [mode; "/"; key] := val]> log_dict)
  end.

(** [for i, lr in enumerate(lrs): log_dict[f"lr/group_{i}"] = lr], the
    enumeration counted from [i]. *)
Fixpoint log_lrs {V : Type} (i : nat) (lrs : list V) (log_dict : gmap string V)
  : gmap string V :=
  match lrs with
  | [] => log_dict
  | lr :: lrs' => log_lrs (S i) lrs' (<[fstring ["lr/group_"; pretty i] := lr]> log_dict)
  end.

(** [log]: the dict handed to [accelerator.log], if the call is made;
    [lrs] is what [scheduler.get_lr()] returns. *)
Definition log {V : Type} (debug : bool) (items : list (string * V)) (mode : string)
    (lrs : list V) : option (gmap string V) :=
  if debug then None
  else
    let log_dict := log_results mode items ∅ in
    Some (if decide (mode = "train") then log_lrs 0 lrs log_dict else log_dict).

(** * Properties *)

(** ** Concrete runs *)

Example parse_jump : parse ["jump"] = Ok [ROOT].
Proof. vm_compute. reflexivity. Qed.

Example parse_turn_left_opposite :
  parse ["turn"; "left"; "opposite"] = Ok [1%Z; 2%Z; ROOT].
Proof. vm_compute. reflexivity. Qed.

Example transform_opposite_left :
  transform_input ["opposite"; "left"] = Ok ["left"; "opposite"].
Proof. vm_compute. reflexivity. Qed.

(** ** The grammar table *)

Lemma elem_of_action_word (w : string) :
  w ∈ action_word ↔
  w = "turn" ∨ w = "walk" ∨ w = "look" ∨ w = "run" ∨ w = "jump".
Proof.
  unfold action_word. rewrite !elem_of_cons, elem_of_nil. tauto.
Qed.

Lemma elem_of_turn_times_word (w : string) :
  w ∈ turn_times_word ↔ w = "opposite" ∨ w = "around".
Proof.
  unfold turn_times_word. rewrite !elem_of_cons, elem_of_nil. tauto.
Qed.

(** C3, as stated, fails: it is not the case that each of the five base
    action words returns a one-element tuple, since ['turn'] returns the
    empty tuple. *)
Lemma base_words_not_all_singletons :
  ¬ (∀ w, w ∈ action_word → ∃ c, semantics w [] = Some (Ok [c])).
Proof.
  intros H. destruct (H "turn") as [c Hc].
  - apply elem_of_action_word. by left.
  - vm_compute in Hc. discriminate Hc.
Qed.

(** C3 (amended): the five base action words have arity 0; walk, look, run
    and jump return the one-element tuples (1,), (2,), (3,), (4,), which are
    the indices of I_WALK, I_LOOK, I_RUN, I_JUMP in the output vocabulary,
    while turn returns the empty tuple; no base word uses index 0; left and
    right prepend 5 and 6, the indices of I_TURN_LEFT and I_TURN_RIGHT. *)
Theorem base_words_semantics :
  (∀ w, w ∈ action_word → sym2arity !! w = Some 0) ∧
  semantics "turn" [] = Some (Ok []) ∧
  (semantics "walk" [] = Some (Ok [1%Z]) ∧ output_token 1 = Some "I_WALK") ∧
  (semantics "look" [] = Some (Ok [2%Z]) ∧ output_token 2 = Some "I_LOOK") ∧
  (semantics "run" [] = Some (Ok [3%Z]) ∧ output_token 3 = Some "I_RUN") ∧
  (semantics "jump" [] = Some (Ok [4%Z]) ∧ output_token 4 = Some "I_JUMP") ∧
  (∀ w t, w ∈ action_word → semantics w [] = Some (Ok t) → 0%Z ∉ t) ∧
  (∀ x, semantics "left" [x] = Some (Ok (5%Z :: x))) ∧
  (∀ x, semantics "right" [x] = Some (Ok (6%Z :: x))) ∧
  output_token 5 = Some "I_TURN_LEFT" ∧
  output_token 6 = Some "I_TURN_RIGHT" ∧
  length vocab_output = 7.
Proof.
  split.
  { intros w Hw. apply elem_of_action_word in Hw.
    destruct Hw as [->|[->|[->|[->| ->]]]]; vm_compute; reflexivity. }
  split; [reflexivity|].
  do 4 (split; [split; reflexivity|]).
  split.
  { intros w t Hw Ht. apply elem_of_action_word in Hw.
    destruct Hw as [->|[->|[->|[->| ->]]]]; vm_compute in Ht;
      injection Ht as <-; rewrite ?elem_of_cons, elem_of_nil;
      intros Hin; repeat destruct Hin as [Hin|Hin]; done. }
  repeat split; reflexivity.
Qed.

(** C7: opposite prepends the first element of its argument to it, around
    repeats its argument four times, and the two connectors concatenate
    their arguments, 'and' in the given order and 'after' in reverse. *)
Theorem operator_semantics :
  (∀ (a : Z) (x : tuple),
     semantics "opposite" [a :: x] = Some (Ok (a :: a :: x))) ∧
  (∀ x : tuple, semantics "around" [x] = Some (Ok (x ++ x ++ x ++ x))) ∧
  (∀ x y : tuple, semantics "and" [x; y] = Some (Ok (x ++ y))) ∧
  (∀ x y : tuple, semantics "after" [x; y] = Some (Ok (y ++ x))).
Proof.
  split; [reflexivity|].
  split; [|split; reflexivity].
  intros x.
  assert (semantics "around" [x] = Some (Ok (tuple_mul x 4))) as ->
    by reflexivity.
  simpl. by rewrite app_nil_r.
Qed.

(** On the empty tuple [x[0]] raises, and so does opposite. *)
Lemma opposite_empty : semantics "opposite" [[]] = Some (Raise IndexError).
Proof. reflexivity. Qed.

(** ** The rewrite loop as a recursion *)

Lemma list_get_app_length {A : Type} (pre rest : list A) (x : A) (j : nat) :
  list_get (pre ++ x :: rest) (length pre + S j) = list_get rest j.
Proof.
  unfold list_get. rewrite lookup_app_r by lia.
  replace (length pre + S j - length pre) with (S j) by lia. reflexivity.
Qed.

Lemma list_set_app_length {A : Type} (pre rest : list A) (j : nat) (y : A) :
  j < length rest →
  list_set (pre ++ rest) (length pre + j) y = Ok (pre ++ <[j := y]> rest).
Proof.
  intros Hj. unfold list_set. rewrite length_app.
  destruct (decide (length pre + j < length pre + length rest)); [|lia].
  by rewrite insert_app_r.
Qed.

Lemma swap_from_cons (c w : string) (rest : list string) :
  swap_from c (w :: rest) =
  if decide (w ∈ turn_times_word) then
    match rest with
    | [] => Raise IndexError
    | x :: _ => out ← swap_from w rest; Ok (x :: out)
    end
  else
    match rest with
    | [] => Ok [c]
    | x :: _ => out ← swap_from x rest; Ok (c :: out)
    end.
Proof. reflexivity. Qed.

Lemma transform_loop_cons (w : string) (orig : list string) (i : nat)
    (input : list string) :
  transform_loop (w :: orig) i input =
  if decide (w ∈ turn_times_word) then
    x ← list_get input (i + 1);
    input1 ← list_set input i x;
    input2 ← list_set input1 (i + 1) w;
    transform_loop orig (S i) input2
  else transform_loop orig (S i) input.
Proof. reflexivity. Qed.

Lemma bind_Ok {A B : Type} (a : A) (k : A → result B) : (Ok a ≫= k) = k a.
Proof. reflexivity. Qed.

Lemma bind_Raise {A B : Type} (e : exn) (k : A → result B) :
  (Raise e ≫= k) = Raise e.
Proof. reflexivity. Qed.

Lemma bind_assoc_Ok {A B : Type} (r : result A) (f : A → B) (pre : B → B) :
  ((a ← r; Ok (f a)) ≫= λ b, Ok (pre b)) = (a ← r; Ok (pre (f a))).
Proof. by destruct r. Qed.

Lemma transform_loop_swap_from (rest pre : list string) (c w : string) :
  transform_loop (w :: rest) (length pre) (pre ++ c :: rest)
  = (out ← swap_from c (w :: rest); Ok (pre ++ out)).
Proof.
  revert pre c w. induction rest as [|x rest IH]; intros pre c w;
    rewrite transform_loop_cons, swap_from_cons;
    destruct (decide (w ∈ turn_times_word)).
  - replace (length pre + 1) with (length pre + S 0) by lia.
    by rewrite list_get_app_length.
  - reflexivity.
  - replace (length pre + 1) with (length pre + S 0) by lia.
    rewrite list_get_app_length.
    change (list_get (x :: rest) 0) with (Ok x). rewrite bind_Ok.
    replace (length pre) with (length pre + 0) at 1 by lia.
    rewrite list_set_app_length by (simpl; lia). rewrite bind_Ok.
    rewrite list_set_app_length by (simpl; lia). rewrite bind_Ok.
    change (<[1:=w]> (<[0:=x]> (c :: x :: rest))) with (x :: w :: rest).
    replace (pre ++ x :: w :: rest) with ((pre ++ [x]) ++ w :: rest)
      by (by rewrite <- app_assoc).
    replace (S (length pre)) with (length (pre ++ [x]))
      by (rewrite length_app; simpl; lia).
    rewrite IH, bind_assoc_Ok.
    destruct (swap_from w (x :: rest)); [|reflexivity].
    rewrite !bind_Ok. by rewrite <- app_assoc.
  - replace (pre ++ c :: x :: rest) with ((pre ++ [c]) ++ x :: rest)
      by (by rewrite <- app_assoc).
    replace (S (length pre)) with (length (pre ++ [c]))
      by (rewrite length_app; simpl; lia).
    rewrite IH, bind_assoc_Ok.
    destruct (swap_from x (x :: rest)); [|reflexivity].
    rewrite !bind_Ok. by rewrite <- app_assoc.
Qed.

(** The rewrite of a non-empty input is [swap_from] started on its first
    token. *)
Lemma transform_input_swap_from (w : string) (rest : list string) :
  transform_input (w :: rest) = swap_from w (w :: rest).
Proof.
  unfold transform_input.
  change (transform_loop (w :: rest) 0 (w :: rest))
    with (transform_loop (w :: rest) (length (@nil string)) ([] ++ w :: rest)).
  rewrite transform_loop_swap_from.
  destruct (swap_from w (w :: rest)); reflexivity.
Qed.

(** Inversion of a bind that returns. *)
Lemma bind_Ok_inv {A B : Type} (r : result A) (k : A → result B) (b : B) :
  (r ≫= k) = Ok b → ∃ a, r = Ok a ∧ k a = Ok b.
Proof. destruct r as [a|e]; [eauto|discriminate]. Qed.

Lemma single_arguments_tail (w : string) (rest : list string) :
  single_arguments (w :: rest) → single_arguments rest.
Proof. intros H i u Hi Hu. exact (H (S i) u Hi Hu). Qed.

Lemma single_arguments_head (w : string) (rest : list string) :
  single_arguments (w :: rest) → w ∈ turn_times_word →
  ∃ a rest', rest = a :: rest' ∧ a ∉ turn_times_word.
Proof.
  intros H Hw. destruct (H 0 w eq_refl Hw) as (a & Ha & Hna).
  destruct rest as [|a' rest']; [discriminate|].
  injection Ha as ->. eauto.
Qed.

Lemma swap_from_first (c w : string) (rest out : list string) :
  w ∉ turn_times_word → swap_from c (w :: rest) = Ok out → out !! 0 = Some c.
Proof.
  intros Hw. rewrite swap_from_cons.
  destruct (decide (w ∈ turn_times_word)); [done|].
  destruct rest as [|x rest'].
  - by intros [= <-].
  - intros H. apply bind_Ok_inv in H as (o & _ & [= <-]). reflexivity.
Qed.

Lemma swap_from_swaps (rest : list string) (c w : string) :
  single_arguments (w :: rest) →
  (w ∈ turn_times_word → c = w) →
  ∃ out, swap_from c (w :: rest) = Ok out ∧
         length out = S (length rest) ∧
         out ≡ₚ c :: rest ∧
         ∀ i u a, (w :: rest) !! i = Some u → u ∈ turn_times_word →
                  (w :: rest) !! S i = Some a →
                  out !! i = Some a ∧ out !! S i = Some u.
Proof.
  revert c w. induction rest as [|x rest IH]; intros c w Hsa Hc;
    rewrite swap_from_cons; destruct (decide (w ∈ turn_times_word)) as [Hw|Hw].
  - destruct (single_arguments_head _ _ Hsa Hw) as (? & ? & ? & _). discriminate.
  - exists [c]. do 3 (split; [done|]).
    intros [|i] u a Hu Htt Ha; [by injection Hu as <-|done].
  - destruct (single_arguments_head _ _ Hsa Hw) as (a0 & rest0 & [= <- <-] & Hx).
    destruct (IH w x (single_arguments_tail _ _ Hsa)) as (out & Hout & Hlen & Hperm & Hpos);
      [done|].
    rewrite Hout, bind_Ok. exists (x :: out).
    split; [done|]. split; [simpl; by rewrite Hlen|]. split.
    { rewrite Hperm, (Hc Hw). apply Permutation_swap. }
    intros [|i] u a Hu Htt Ha.
    + injection Hu as <-. injection Ha as <-. split; [done|].
      exact (swap_from_first _ _ _ _ Hx Hout).
    + exact (Hpos i u a Hu Htt Ha).
  - destruct (IH x x (single_arguments_tail _ _ Hsa)) as (out & Hout & Hlen & Hperm & Hpos);
      [done|].
    rewrite Hout, bind_Ok. exists (c :: out).
    split; [done|]. split; [simpl; by rewrite Hlen|]. split.
    { by rewrite Hperm. }
    intros [|i] u a Hu Htt Ha.
    + by injection Hu as <-.
    + exact (Hpos i u a Hu Htt Ha).
Qed.

Lemma swap_from_returns (rest : list string) (c w : string) :
  returns (swap_from c (w :: rest)) ↔
  ∀ u, last (w :: rest) = Some u → u ∉ turn_times_word.
Proof.
  revert c w. induction rest as [|x rest IH]; intros c w;
    rewrite swap_from_cons; destruct (decide (w ∈ turn_times_word)) as [Hw|Hw].
  - split; [intros [? ?]; discriminate|]. intros H. by destruct (H w).
  - split; [|by eexists]. by intros _ u [= <-].
  - change (last (w :: x :: rest)) with (last (x :: rest)). rewrite <- (IH w x).
    split; intros [o Ho].
    + apply bind_Ok_inv in Ho as (o' & -> & _). by eexists.
    + rewrite Ho. by eexists.
  - change (last (w :: x :: rest)) with (last (x :: rest)). rewrite <- (IH x x).
    split; intros [o Ho].
    + apply bind_Ok_inv in Ho as (o' & -> & _). by eexists.
    + rewrite Ho. by eexists.
Qed.

Lemma swap_from_no_turn_times (rest : list string) (c w : string) :
  Forall (λ u, u ∉ turn_times_word) (w :: rest) →
  swap_from c (w :: rest) = Ok (c :: rest).
Proof.
  revert c w. induction rest as [|x rest IH]; intros c w Hall;
    rewrite swap_from_cons; apply Forall_cons in Hall as [Hw Hall];
    destruct (decide (w ∈ turn_times_word)); try done.
  by rewrite (IH x x Hall).
Qed.

Lemma swap_from_fixed (rest : list string) (c c' w : string) :
  swap_from c (w :: rest) = Ok (c' :: rest) →
  Forall (λ u, u ∉ turn_times_word) (w :: rest).
Proof.
  revert c c' w. induction rest as [|x rest IH]; intros c c' w;
    rewrite swap_from_cons; destruct (decide (w ∈ turn_times_word)) as [Hw|Hw];
    intros H.
  - discriminate.
  - by repeat constructor.
  - apply bind_Ok_inv in H as (o & Ho & [= <- ->]).
    pose proof (IH _ _ _ Ho) as Hall.
    pose proof (Forall_inv Hall) as Hx.
    pose proof (swap_from_first _ _ _ _ Hx Ho) as [= ->]. done.
  - apply bind_Ok_inv in H as (o & Ho & [= <- ->]).
    constructor; [done|]. exact (IH _ _ _ Ho).
Qed.

Lemma swap_from_keeps_turn_times (rest : list string) (c w : string)
    (out : list string) :
  c ∈ turn_times_word → swap_from c (w :: rest) = Ok out →
  Exists (λ u, u ∈ turn_times_word) out.
Proof.
  revert c w out. induction rest as [|x rest IH]; intros c w out Hc;
    rewrite swap_from_cons; destruct (decide (w ∈ turn_times_word)) as [Hw|Hw];
    intros H.
  - discriminate.
  - injection H as <-. by constructor.
  - apply bind_Ok_inv in H as (o & Ho & [= <-]).
    apply Exists_cons_tl. exact (IH _ _ _ Hw Ho).
  - apply bind_Ok_inv in H as (o & Ho & [= <-]). by constructor.
Qed.

Lemma swap_from_turn_times_free (rest : list string) (c w : string)
    (out : list string) :
  swap_from c (w :: rest) = Ok out →
  Forall (λ u, u ∉ turn_times_word) out →
  Forall (λ u, u ∉ turn_times_word) (w :: rest).
Proof.
  revert c w out. induction rest as [|x rest IH]; intros c w out;
    rewrite swap_from_cons; destruct (decide (w ∈ turn_times_word)) as [Hw|Hw];
    intros H Hall.
  - discriminate.
  - by repeat constructor.
  - apply bind_Ok_inv in H as (o & Ho & [= <-]).
    apply Forall_cons in Hall as [_ Hall].
    pose proof (swap_from_keeps_turn_times _ _ _ _ Hw Ho) as Hex.
    apply Exists_exists in Hex as (u & Hu & Htt).
    rewrite Forall_forall in Hall. by destruct (Hall u Hu).
  - apply bind_Ok_inv in H as (o & Ho & [= <-]).
    apply Forall_cons in Hall as [_ Hall].
    constructor; [done|]. exact (IH _ _ _ Ho Hall).
Qed.

Lemma swap_from_raises (rest : list string) (c w : string) (e : exn) :
  swap_from c (w :: rest) = Raise e → e = IndexError.
Proof.
  revert c w. induction rest as [|x rest IH]; intros c w;
    rewrite swap_from_cons; destruct (decide (w ∈ turn_times_word)) as [Hw|Hw];
    try congruence.
  - destruct (swap_from w (x :: rest)) eqn:E; [discriminate|].
    intros [= <-]. eauto.
  - destruct (swap_from x (x :: rest)) eqn:E; [discriminate|].
    intros [= <-]. eauto.
Qed.

Lemma swap_from_lookup (rest : list string) (c w : string) (out : list string) :
  swap_from c (w :: rest) = Ok out →
  ∀ i, out !! i = swapped_from_at c (w :: rest) i.
Proof.
  revert c w out. induction rest as [|x rest IH]; intros c w out;
    rewrite swap_from_cons; destruct (decide (w ∈ turn_times_word)) as [Hw|Hw];
    intros H.
  - discriminate.
  - injection H as <-. intros [|i]; [|reflexivity].
    unfold swapped_from_at; simpl. by destruct (decide (w ∈ turn_times_word)).
  - apply bind_Ok_inv in H as (o & Ho & [= <-]).
    pose proof (IH _ _ _ Ho) as Hlk.
    intros [|i].
    + unfold swapped_from_at; simpl. by destruct (decide (w ∈ turn_times_word)).
    + simpl. rewrite Hlk. unfold swapped_from_at; simpl.
      destruct ((x :: rest) !! i) as [u|] eqn:Eu; simpl; [|reflexivity].
      destruct (decide (u ∈ turn_times_word)); [reflexivity|].
      destruct i as [|j]; simpl; [|reflexivity].
      by destruct (decide (w ∈ turn_times_word)).
  - apply bind_Ok_inv in H as (o & Ho & [= <-]).
    pose proof (IH _ _ _ Ho) as Hlk.
    intros [|i].
    + unfold swapped_from_at; simpl. by destruct (decide (w ∈ turn_times_word)).
    + simpl. rewrite Hlk. unfold swapped_from_at; simpl.
      destruct ((x :: rest) !! i) as [u|] eqn:Eu; simpl; [|reflexivity].
      destruct (decide (u ∈ turn_times_word)); [reflexivity|].
      destruct i as [|j]; simpl; [|reflexivity].
      destruct (decide (w ∈ turn_times_word)); [done|]. by injection Eu as ->.
Qed.

Lemma transform_input_lookup (t out : list string) :
  transform_input t = Ok out → ∀ i, out !! i = swapped_at t i.
Proof.
  destruct t as [|w rest].
  - intros [= <-] i. reflexivity.
  - rewrite transform_input_swap_from. intros H i.
    rewrite (swap_from_lookup _ _ _ _ H). unfold swapped_from_at, swapped_at.
    destruct ((w :: rest) !! i) as [u|] eqn:Eu; simpl; [|reflexivity].
    destruct (decide (u ∈ turn_times_word)); [reflexivity|].
    destruct i; [|reflexivity]. by injection Eu as ->.
Qed.

Lemma single_argumentsb_sound (t : list string) :
  single_argumentsb t = true → single_arguments t.
Proof.
  induction t as [|w rest IH]; intros H i u Hi Hu; [done|].
  simpl in H. apply andb_true_iff in H as [Hhd Htl].
  destruct i as [|i]; [|exact (IH Htl i u Hi Hu)].
  injection Hi as ->. destruct (decide (u ∈ turn_times_word)); [|done].
  destruct rest as [|a rest']; [done|].
  exists a. split; [done|]. by apply bool_decide_eq_true in Hhd.
Qed.

(** ** Properties of [transform_input] *)

(** C4, as stated, fails: on the command [turn opposite left twice], whose
    tokens are all in the vocabulary, rewriting twice does not give what
    rewriting once gives. *)
Lemma transform_input_not_idempotent :
  ¬ (∀ t, Forall (λ w, w ∈ vocab) t →
          (transform_input t ≫= transform_input) = transform_input t).
Proof.
  intros H. specialize (H ["turn"; "opposite"; "left"; "twice"]).
  assert (Forall (λ w, w ∈ vocab) ["turn"; "opposite"; "left"; "twice"]) as Hv.
  { repeat constructor; unfold vocab; simpl; rewrite !elem_of_cons; tauto. }
  specialize (H Hv). vm_compute in H. discriminate H.
Qed.

(** C4 (amended): a token sequence without turn-repeat tokens is left
    unchanged by the rewrite, so rewriting it twice is rewriting it once;
    and whenever the rewrite returns, its output is a fixed point of the
    rewrite exactly when the input had no turn-repeat token. *)
Theorem transform_input_fixed_points (t : list string) :
  (Forall (λ w, w ∉ turn_times_word) t →
     transform_input t = Ok t ∧
     (transform_input t ≫= transform_input) = transform_input t) ∧
  (∀ u, transform_input t = Ok u →
     (transform_input u = Ok u ↔ Forall (λ w, w ∉ turn_times_word) t)).
Proof.
  assert (Forall (λ w, w ∉ turn_times_word) t → transform_input t = Ok t) as Hid.
  { destruct t as [|w rest]; [done|]. intros Hall.
    rewrite transform_input_swap_from. by apply swap_from_no_turn_times. }
  split.
  - intros Hall. split; [by apply Hid|]. by rewrite (Hid Hall), bind_Ok, (Hid Hall).
  - intros u Hu. split.
    + intros Hfix.
      assert (Forall (λ w, w ∉ turn_times_word) u) as Hfree.
      { destruct u as [|c rest]; [constructor|].
        rewrite transform_input_swap_from in Hfix.
        exact (swap_from_fixed _ _ _ _ Hfix). }
      destruct t as [|w rest]; [constructor|].
      rewrite transform_input_swap_from in Hu.
      exact (swap_from_turn_times_free _ _ _ _ Hu Hfree).
    + intros Hall. rewrite (Hid Hall) in Hu. injection Hu as <-. by apply Hid.
Qed.

Lemma transform_input_fixed_points_witness :
  transform_input ["jump"; "twice"; "and"; "walk"]
  = Ok ["jump"; "twice"; "and"; "walk"].
Proof.
  refine (proj1 (proj1 (transform_input_fixed_points
                          ["jump"; "twice"; "and"; "walk"]) _)).
  apply (bool_decide_unpack _). vm_compute. exact I.
Defined.

(** C5: when every turn-repeat token is immediately followed by one
    argument token, the rewrite returns a sequence of the same length that
    is a permutation of the input, in which every turn-repeat token has
    changed places with its argument; each output position is determined
    by the input tokens at that position and its two neighbours. *)
Theorem transform_input_swaps (t : list string) :
  single_arguments t →
  ∃ out, transform_input t = Ok out ∧
         length out = length t ∧
         out ≡ₚ t ∧
         (∀ i w a, t !! i = Some w → w ∈ turn_times_word → t !! S i = Some a →
                   out !! i = Some a ∧ out !! S i = Some w) ∧
         (∀ i, out !! i = swapped_at t i).
Proof.
  intros Hsa. destruct t as [|w rest].
  - exists []. repeat split; try done.
  - destruct (swap_from_swaps rest w w Hsa) as (out & Hout & Hlen & Hperm & Hpos);
      [done|].
    rewrite <- transform_input_swap_from in Hout.
    exists out. do 4 (split; [done|]).
    by apply transform_input_lookup.
Qed.

Lemma transform_input_swaps_witness :
  ∃ out, transform_input ["jump"; "around"; "right"; "and"; "turn"; "opposite"; "left"]
         = Ok out ∧
         length out = 7 ∧
         out ≡ₚ ["jump"; "around"; "right"; "and"; "turn"; "opposite"; "left"] ∧
         out !! 1 = Some "right" ∧ out !! 2 = Some "around" ∧
         out !! 5 = Some "left" ∧ out !! 6 = Some "opposite".
Proof.
  destruct (transform_input_swaps
              ["jump"; "around"; "right"; "and"; "turn"; "opposite"; "left"])
    as (out & Hout & Hlen & Hperm & Hpos & _).
  - apply single_argumentsb_sound. vm_compute. reflexivity.
  - exists out. do 3 (split; [assumption|]).
    destruct (Hpos 1 "around" "right") as [H1 H2];
      [reflexivity|apply elem_of_turn_times_word; by right|reflexivity|].
    destruct (Hpos 5 "opposite" "left") as [H5 H6];
      [reflexivity|apply elem_of_turn_times_word; by left|reflexivity|].
    auto.
Defined.

(** When a turn-repeat token is followed by another one, the second swap
    overwrites the token the first swap moved, and the output is no
    permutation of the input: [single_arguments] asks for an argument that
    is not a turn-repeat token. *)
Lemma transform_input_nested :
  transform_input ["opposite"; "around"; "left"] = Ok ["around"; "left"; "around"].
Proof. vm_compute. reflexivity. Qed.

(** C6, as stated, fails: the rewrite is not total on sequences over the
    vocabulary, it raises on one that ends in a turn-repeat token. *)
Lemma transform_input_not_total :
  ¬ (∀ t, Forall (λ w, w ∈ vocab) t → returns (transform_input t)).
Proof.
  intros H. destruct (H ["turn"; "opposite"]) as [out Hout].
  - repeat constructor; unfold vocab; simpl; rewrite !elem_of_cons; tauto.
  - vm_compute in Hout. discriminate Hout.
Qed.

(** C6 (amended): the rewrite returns a token sequence exactly on the
    inputs whose last token is not a turn-repeat token, which includes every
    input in which each turn-repeat token is followed by its argument; on
    every other input it raises [IndexError]. *)
Theorem transform_input_returns_iff (t : list string) :
  (returns (transform_input t) ↔
     ∀ u, last t = Some u → u ∉ turn_times_word) ∧
  (single_arguments t → returns (transform_input t)) ∧
  (¬ returns (transform_input t) → transform_input t = Raise IndexError).
Proof.
  split; [|split].
  - destruct t as [|w rest].
    + split; [done|]. intros _. by exists [].
    + rewrite transform_input_swap_from. apply swap_from_returns.
  - intros Hsa. destruct t as [|w rest]; [by exists []|].
    destruct (swap_from_swaps rest w w Hsa) as (out & Hout & _); [done|].
    rewrite transform_input_swap_from. by exists out.
  - intros Hno. destruct (transform_input t) as [out|e] eqn:E.
    + destruct Hno. by exists out.
    + destruct t as [|w rest]; [discriminate|].
      rewrite transform_input_swap_from in E.
      by rewrite (swap_from_raises _ _ _ _ E).
Qed.

Lemma transform_input_returns_iff_witness :
  returns (transform_input ["walk"; "around"; "left"; "thrice"]).
Proof.
  apply (transform_input_returns_iff ["walk"; "around"; "left"; "thrice"]).
  apply single_argumentsb_sound. vm_compute. reflexivity.
Defined.

(** ** Concrete runs of [parse] and its failures *)

(** C8, as stated, fails: the rewrite of [opposite left] is [left opposite],
    but [parse] does not return on it, since 'left' finds no value to take
    as its argument. *)
Lemma parse_left_opposite_raises :
  transform_input ["opposite"; "left"] = Ok ["left"; "opposite"] ∧
  ¬ (∃ head, parse ["left"; "opposite"] = Ok head ∧
             head !! 0 = Some 1%Z ∧ head !! 1 = Some ROOT).
Proof.
  split; [reflexivity|]. intros (head & Hparse & _).
  vm_compute in Hparse. discriminate Hparse.
Qed.

(** C8 (amended): the rewrite of [opposite left] is [left opposite], on
    which [parse] raises [IndexError]; with the action word in front, the
    rewrite of [turn opposite left] is [turn left opposite], and [parse]
    gives 'turn' the head 'left', 'left' the head 'opposite' and 'opposite'
    the head ROOT. *)
Theorem parse_opposite_left :
  transform_input ["opposite"; "left"] = Ok ["left"; "opposite"] ∧
  parse ["left"; "opposite"] = Raise IndexError ∧
  transform_input ["turn"; "opposite"; "left"] = Ok ["turn"; "left"; "opposite"] ∧
  parse ["turn"; "left"; "opposite"] = Ok [1%Z; 2%Z; ROOT].
Proof. repeat split; vm_compute; reflexivity. Qed.

(** ** Underflow of the value stack *)

Lemma pop_assign_underflow (k op : nat) (head : list Z) (values : list nat) :
  length values < k → pop_assign k op head values = Raise IndexError.
Proof.
  revert head values. induction k as [|k IH]; intros head values Hlen; [lia|].
  destruct values as [|v values]; [reflexivity|]. simpl in *.
  unfold list_set. destruct (decide (v < length head)); [|reflexivity].
  rewrite bind_Ok. apply IH. lia.
Qed.

(** ** Paths and children in a head array *)

Lemma ROOT_not_position (p : nat) : ROOT ≠ Z.of_nat p.
Proof. unfold ROOT. lia. Qed.

Lemma reach_path (head : list Z) (c r : nat) :
  reach head c r ↔ ∃ n, path head n c r.
Proof.
  split.
  - induction 1 as [p|c p r Hc _ [n IH]].
    + exists 0. constructor.
    + exists (S n). by econstructor.
  - intros [n Hn]. induction Hn; [constructor|by econstructor].
Qed.

Lemma path_app (head : list Z) (n m a b c : nat) :
  path head n a b → path head m b c → path head (n + m) a c.
Proof.
  induction 1 as [p|n a p b Ha _ IH]; intros Hm; [done|].
  simpl. econstructor; [done|]. by apply IH.
Qed.

(** Heads are followed deterministically, so the number of edges from a
    position to a root is determined. *)
Lemma path_to_root_unique (head : list Z) (n m c r : nat) :
  head !! r = Some ROOT → path head n c r → path head m c r → n = m.
Proof.
  intros Hr Hn. revert m. induction Hn as [p|n c p r Hc _ IH]; intros m Hm.
  - inversion Hm as [|m' c' p' r' Hc' _]; subst; [done|].
    rewrite Hr in Hc'. injection Hc' as Hc'. by destruct (ROOT_not_position p').
  - inversion Hm as [|m' c' p' r' Hc' Hm']; subst.
    + rewrite Hr in Hc. injection Hc as Hc. by destruct (ROOT_not_position p).
    + rewrite Hc in Hc'. injection Hc' as Hpp. apply Nat2Z.inj in Hpp. subst p'.
      f_equal. by apply IH.
Qed.

(** A position from which a root is reached lies on no cycle. *)
Lemma reach_root_acyclic (head : list Z) (n c r : nat) :
  head !! r = Some ROOT → reach head c r → ¬ path head (S n) c c.
Proof.
  intros Hr Hreach Hcyc. apply reach_path in Hreach as [m Hm].
  pose proof (path_app _ _ _ _ _ _ Hcyc Hm) as Hlong.
  pose proof (path_to_root_unique _ _ _ _ _ Hr Hm Hlong). lia.
Qed.

(** Giving a head to a position that had none keeps every existing path. *)
Lemma reach_insert (head : list Z) (v : nat) (z : Z) (c r : nat) :
  head !! v = Some ROOT → reach head c r → reach (<[v := z]> head) c r.
Proof.
  intros Hv. induction 1 as [p|c p r Hc _ IH]; [constructor|].
  econstructor; [|exact IH].
  rewrite list_lookup_insert_ne; [done|]. intros ->.
  rewrite Hv in Hc. injection Hc as Hc. by destruct (ROOT_not_position p).
Qed.

Lemma reach_snoc (head : list Z) (c v p : nat) :
  reach head c v → head !! v = Some (Z.of_nat p) → reach head c p.
Proof.
  induction 1 as [q|c q r Hc _ IH]; intros Hv.
  - econstructor; [done|constructor].
  - econstructor; [done|]. by apply IH.
Qed.

Lemma elem_of_children (head : list Z) (p c : nat) :
  c ∈ children head p ↔ head !! c = Some (Z.of_nat p).
Proof.
  unfold children. rewrite list_elem_of_filter, elem_of_seq. split; [tauto|].
  intros H. split; [done|]. apply lookup_lt_Some in H. lia.
Qed.

Lemma NoDup_children (head : list Z) (p : nat) : NoDup (children head p).
Proof. apply NoDup_filter, NoDup_seq. Qed.

(** Giving the head [op] to a position [v] that had none adds [v] to the
    children of [op] and changes the children of no other position. *)
Lemma children_insert (head : list Z) (v op p : nat) :
  v < length head → head !! v = Some ROOT →
  length (children (<[v := Z.of_nat op]> head) p)
  = length (children head p) + (if decide (p = op) then 1 else 0).
Proof.
  intros Hlt Hv. destruct (decide (p = op)) as [->|Hne].
  - rewrite Nat.add_1_r. change (S (length (children head op)))
      with (length (v :: children head op)).
    apply Permutation_length, NoDup_Permutation.
    + apply NoDup_children.
    + constructor; [|apply NoDup_children].
      rewrite elem_of_children, Hv. intros [= H].
      by destruct (ROOT_not_position op).
    + intros c. rewrite elem_of_cons, !elem_of_children.
      destruct (decide (c = v)) as [->|Hc].
      * rewrite list_lookup_insert_eq by done. tauto.
      * rewrite list_lookup_insert_ne by done. tauto.
  - rewrite Nat.add_0_r. apply Permutation_length, NoDup_Permutation;
      try apply NoDup_children.
    intros c. rewrite !elem_of_children.
    destruct (decide (c = v)) as [->|Hc].
    + rewrite list_lookup_insert_eq, Hv by done. split; intros [= H].
      * apply Nat2Z.inj in H. by destruct Hne.
      * by destruct (ROOT_not_position p).
    + by rewrite list_lookup_insert_ne by done.
Qed.

(** ** Preservation of the invariant *)

Lemma scan_cons (input : list string) (sym : string) (rest : list string) (i : nat)
    (head : list Z) (values operators : list nat) :
  scan input (sym :: rest) i head values operators =
  ('(head', values', operators') ← scan_step input i sym head values operators;
   scan input rest (S i) head' values' operators').
Proof. reflexivity. Qed.

Section parser_invariant.
Variable input : list string.

Lemma children_replicate_ROOT (n p : nat) : children (replicate n ROOT) p = [].
Proof.
  apply elem_of_nil_inv. intros c. rewrite elem_of_children.
  intros H. apply lookup_replicate in H as [H _].
  by destruct (ROOT_not_position p).
Qed.

Lemma forest_init : forest input 0 (replicate (length input) ROOT) [] [].
Proof.
  split; simpl.
  - lia.
  - apply length_replicate.
  - constructor.
  - intros p Hp. by apply elem_of_nil in Hp.
  - intros p Hp. by apply elem_of_nil in Hp.
  - intros p _ Hp. by apply lookup_replicate_2.
  - intros c z H. apply lookup_replicate in H as [-> _]. by left.
  - intros p Hp. lia.
Qed.

Lemma counted_init : counted input 0 (replicate (length input) ROOT) [].
Proof.
  split.
  - intros p _. by rewrite children_replicate_ROOT.
  - intros p Hp. lia.
Qed.

(** A popped operator becomes the root of its own, still empty, subtree. *)
Lemma forest_move (i : nat) (head : list Z) (values operators : list nat) (op : nat) :
  forest input i head values (op :: operators) → forest input i head (op :: values) operators.
Proof.
  intros [Hb Hl Hnd Hlt Hfree Hfresh Hheads Hreach].
  assert ((op :: values) ++ operators ≡ₚ values ++ op :: operators) as Hperm
    by (simpl; apply Permutation_middle).
  split; try done.
  - by rewrite Hperm.
  - intros p Hp. apply Hlt. by rewrite <- Hperm.
  - intros p Hp. apply Hfree. by rewrite <- Hperm.
  - intros p Hp Hno. destruct (decide (p = op)) as [->|Hne].
    + exists op. split; [by left|constructor].
    + destruct (Hreach p Hp) as (v & Hv & Hr).
      { rewrite elem_of_cons. tauto. }
      exists v. split; [by right|done].
Qed.

(** One execution of [head[values.pop()] = op]. *)
Lemma forest_assign (i : nat) (head : list Z) (values operators : list nat)
    (op v : nat) :
  forest input i head (op :: v :: values) operators →
  forest input i (<[v := Z.of_nat op]> head) (op :: values) operators.
Proof.
  intros [Hb Hl Hnd Hlt Hfree Hfresh Hheads Hreach].
  assert (head !! v = Some ROOT) as Hv.
  { apply Hfree. simpl. rewrite !elem_of_cons. tauto. }
  assert (v < length head) as Hvlt by (by apply lookup_lt_Some in Hv).
  assert (v < i) as Hvi.
  { apply Hlt. simpl. rewrite !elem_of_cons. tauto. }
  assert (op < i) as Hopi.
  { apply Hlt. simpl. rewrite !elem_of_cons. tauto. }
  simpl in Hnd. apply NoDup_cons in Hnd as [Hop Hnd].
  apply NoDup_cons in Hnd as [Hvnot Hnd].
  assert (∀ p, p ∈ (op :: values) ++ operators → p ≠ v) as Hnev.
  { intros p Hp ->. simpl in Hp. apply elem_of_cons in Hp as [->|Hp]; [|done].
    apply Hop. by left. }
  split; try done.
  - by rewrite length_insert.
  - simpl. constructor; [|done]. intros Hin. apply Hop. by right.
  - intros p Hp. apply Hlt. simpl in *. rewrite !elem_of_cons in *. tauto.
  - intros p Hp. rewrite list_lookup_insert_ne by (symmetry; by apply Hnev).
    apply Hfree. simpl in *. rewrite !elem_of_cons in *. tauto.
  - intros p Hp Hpn. rewrite list_lookup_insert_ne by lia. by apply Hfresh.
  - intros c z. destruct (decide (c = v)) as [->|Hc].
    + rewrite list_lookup_insert_eq by done. intros [= <-]. right. eauto.
    + rewrite list_lookup_insert_ne by done. apply Hheads.
  - intros p Hp Hno. destruct (Hreach p Hp Hno) as (w & Hw & Hr).
    apply (reach_insert _ v (Z.of_nat op)) in Hr; [|done].
    rewrite !elem_of_cons in Hw. destruct Hw as [->|[->|Hw]].
    + exists op. split; [by left|done].
    + exists op. split; [by left|]. apply (reach_snoc _ _ v); [done|].
      by apply list_lookup_insert_eq.
    + exists w. split; [by right|done].
Qed.

Lemma pop_assign_forest (i op : nat) (operators : list nat) (k : nat) :
  ∀ head values head' values',
    forest input i head (op :: values) operators →
    pop_assign k op head values = Ok (head', values') →
    forest input i head' (op :: values') operators ∧
    ∀ p, length (children head' p)
         = length (children head p) + (if decide (p = op) then k else 0).
Proof.
  induction k as [|k IH]; intros head values head' values' Hf Hpop.
  - injection Hpop as <- <-. split; [done|]. intros p.
    destruct (decide (p = op)); lia.
  - destruct values as [|v values]; [discriminate|]. simpl in Hpop.
    assert (head !! v = Some ROOT) as Hv.
    { apply (forest_free _ _ _ _ _ Hf). simpl. rewrite !elem_of_cons. tauto. }
    assert (v < length head) as Hvlt by (by apply lookup_lt_Some in Hv).
    unfold list_set in Hpop. destruct (decide (v < length head)); [|done].
    rewrite bind_Ok in Hpop.
    destruct (IH _ _ _ _ (forest_assign _ _ _ _ _ _ Hf) Hpop) as [Hf' Hcnt].
    split; [done|]. intros p. rewrite Hcnt, children_insert by done.
    destruct (decide (p = op)); lia.
Qed.

(** A reduction keeps the invariant and completes the popped operator. *)
Lemma reduce_inv (i op : nat) (head : list Z) (values operators : list nat)
    (head' : list Z) (values' : list nat) :
  forest input i head values (op :: operators) →
  counted input i head (op :: operators) →
  reduce input op head values = Ok (head', values') →
  forest input i head' values' operators ∧ counted input i head' operators.
Proof.
  intros Hf [Hpend Hdone] Hred. unfold reduce in Hred.
  apply bind_Ok_inv in Hred as (s & Hs & Hred).
  apply bind_Ok_inv in Hred as (k & Hk & Hred).
  apply bind_Ok_inv in Hred as ([h v] & Hpop & [= <- <-]).
  unfold list_get in Hs. destruct (input !! op) as [s'|] eqn:Es; [|done].
  injection Hs as ->.
  unfold dict_get in Hk. destruct (sym2arity !! s) as [k'|] eqn:Ek; [|done].
  injection Hk as ->.
  destruct (pop_assign_forest i op operators k _ _ _ _ (forest_move _ _ _ _ _ Hf) Hpop)
    as [Hf' Hcnt].
  split; [done|].
  pose proof (forest_nodup _ _ _ _ _ Hf) as Hnd.
  apply NoDup_app in Hnd as (_ & _ & Hnd). apply NoDup_cons in Hnd as [Hop _].
  assert (op < i) as Hopi.
  { apply (forest_lt _ _ _ _ _ Hf). rewrite elem_of_app, elem_of_cons. tauto. }
  split.
  - intros p Hp. rewrite Hcnt. destruct (decide (p = op)) as [->|Hne].
    + destruct Hp as [Hp|Hp]; [done|lia].
    + rewrite Nat.add_0_r. apply Hpend. rewrite elem_of_cons. tauto.
  - intros p Hp Hno. rewrite Hcnt. destruct (decide (p = op)) as [->|Hne].
    + rewrite Hpend by (left; by left). unfold arity_at. by rewrite Es.
    + rewrite Nat.add_0_r. apply Hdone; [done|]. rewrite elem_of_cons. tauto.
Qed.
Lemma reduce_while_inv (i : nat) (sym : string) (operators : list nat) :
  ∀ head values head' values' operators',
    forest input i head values operators →
    counted input i head operators →
    reduce_while input sym head values operators = Ok (head', values', operators') →
    forest input i head' values' operators' ∧ counted input i head' operators'.
Proof.
  induction operators as [|op operators IH];
    intros head values head' values' operators' Hf Hc Hrw.
  - by injection Hrw as <- <- <-.
  - simpl in Hrw.
    apply bind_Ok_inv in Hrw as (s & _ & Hrw).
    apply bind_Ok_inv in Hrw as (ptop & _ & Hrw).
    apply bind_Ok_inv in Hrw as (psym & _ & Hrw).
    destruct (decide (psym ≤ ptop)).
    + apply bind_Ok_inv in Hrw as ([h v] & Hred & Hrw).
      destruct (reduce_inv _ _ _ _ _ _ _ Hf Hc Hred) as [Hf' Hc'].
      exact (IH _ _ _ _ _ Hf' Hc' Hrw).
    + by injection Hrw as <- <- <-.
Qed.

Lemma drain_inv (i : nat) (operators : list nat) :
  ∀ head values head' values',
    forest input i head values operators →
    counted input i head operators →
    drain input head values operators = Ok (head', values') →
    forest input i head' values' [] ∧ counted input i head' [].
Proof.
  induction operators as [|op operators IH];
    intros head values head' values' Hf Hc Hdr.
  - by injection Hdr as <- <-.
  - simpl in Hdr. apply bind_Ok_inv in Hdr as ([h v] & Hred & Hdr).
    destruct (reduce_inv _ _ _ _ _ _ _ Hf Hc Hred) as [Hf' Hc'].
    exact (IH _ _ _ _ Hf' Hc' Hdr).
Qed.

(** An arity-0 position is pushed on the value stack. *)
Lemma forest_shift_value (i : nat) (head : list Z) (values operators : list nat) :
  forest input i head values operators →
  i < length input →
  forest input (S i) head (i :: values) operators.
Proof.
  intros [Hb Hl Hnd Hlt Hfree Hfresh Hheads Hreach] Hi.
  split; try done.
  - simpl. constructor; [|done]. intros Hp. apply Hlt in Hp. lia.
  - intros p Hp. simpl in Hp. apply elem_of_cons in Hp as [->|Hp]; [lia|].
    apply Hlt in Hp. lia.
  - intros p Hp. simpl in Hp. apply elem_of_cons in Hp as [->|Hp].
    + apply Hfresh; lia.
    + by apply Hfree.
  - intros p Hp Hpn. apply Hfresh; lia.
  - intros c z Hc. destruct (Hheads c z Hc) as [->|(p & -> & Hp)]; [by left|].
    right. exists p. split; [done|lia].
  - intros p Hp Hno. destruct (decide (p = i)) as [->|Hne].
    + exists i. split; [by left|constructor].
    + destruct (Hreach p) as (v & Hv & Hr); [lia|done|].
      exists v. split; [by right|done].
Qed.

(** The position of an operator is pushed on the operator stack. *)
Lemma forest_shift_operator (i : nat) (head : list Z) (values operators : list nat) :
  forest input i head values operators →
  i < length input →
  forest input (S i) head values (i :: operators).
Proof.
  intros [Hb Hl Hnd Hlt Hfree Hfresh Hheads Hreach] Hi.
  assert (values ++ i :: operators ≡ₚ i :: values ++ operators) as Hperm
    by (symmetry; apply Permutation_middle).
  split; try done.
  - rewrite Hperm. constructor; [|done]. intros Hp. apply Hlt in Hp. lia.
  - intros p Hp. rewrite Hperm in Hp. apply elem_of_cons in Hp as [->|Hp]; [lia|].
    apply Hlt in Hp. lia.
  - intros p Hp. rewrite Hperm in Hp. apply elem_of_cons in Hp as [->|Hp].
    + apply Hfresh; lia.
    + by apply Hfree.
  - intros p Hp Hpn. apply Hfresh; lia.
  - intros c z Hc. destruct (Hheads c z Hc) as [->|(p & -> & Hp)]; [by left|].
    right. exists p. split; [done|lia].
  - intros p Hp Hno. rewrite elem_of_cons in Hno.
    apply Hreach; [|tauto]. destruct (decide (p = i)); [tauto|lia].
Qed.

Lemma scan_step_inv (i : nat) (sym : string) (head : list Z)
    (values operators : list nat) (head' : list Z) (values' operators' : list nat) :
  forest input i head values operators →
  counted input i head operators →
  input !! i = Some sym →
  scan_step input i sym head values operators = Ok (head', values', operators') →
  forest input (S i) head' values' operators' ∧ counted input (S i) head' operators'.
Proof.
  intros Hf Hc Hsym Hstep.
  assert (i < length input) as Hi by (by apply lookup_lt_Some in Hsym).
  unfold scan_step in Hstep. apply bind_Ok_inv in Hstep as (k & Hk & Hstep).
  unfold dict_get in Hk. destruct (sym2arity !! sym) as [k'|] eqn:Ek; [|done].
  injection Hk as ->. destruct (decide (k = 0)) as [->|Hk].
  - injection Hstep as <- <- <-. split; [by apply forest_shift_value|].
    destruct Hc as [Hpend Hdone]. split.
    + intros p Hp. apply Hpend. destruct Hp; [tauto|right; lia].
    + intros p Hp Hno. destruct (decide (p = i)) as [->|Hne].
      * rewrite Hpend by (right; lia). unfold arity_at. by rewrite Hsym.
      * apply Hdone; [lia|done].
  - apply bind_Ok_inv in Hstep as ([[h v] o] & Hrw & [= <- <- <-]).
    destruct (reduce_while_inv _ _ _ _ _ _ _ _ Hf Hc Hrw) as [Hf' [Hpend Hdone]].
    split; [by apply forest_shift_operator|]. split.
    + intros p Hp. apply Hpend. rewrite elem_of_cons in Hp.
      destruct Hp as [[->|Hp]|Hp]; [right; lia|tauto|right; lia].
    + intros p Hp Hno. rewrite elem_of_cons in Hno.
      apply Hdone; [|tauto]. destruct (decide (p = i)); [tauto|lia].
Qed.

Lemma scan_inv (rest : list string) :
  ∀ i head values operators head' values' operators',
    drop i input = rest →
    forest input i head values operators →
    counted input i head operators →
    scan input rest i head values operators = Ok (head', values', operators') →
    forest input (length input) head' values' operators' ∧
    counted input (length input) head' operators'.
Proof.
  induction rest as [|sym rest IH];
    intros i head values operators head' values' operators' Hdrop Hf Hc Hscan.
  - injection Hscan as <- <- <-.
    assert (i = length input) as <-; [|done].
    pose proof (forest_bound _ _ _ _ _ Hf) as Hb.
    apply (f_equal length) in Hdrop. rewrite length_drop in Hdrop. simpl in Hdrop. lia.
  - rewrite scan_cons in Hscan.
    apply bind_Ok_inv in Hscan as ([[h v] o] & Hstep & Hscan).
    assert (input !! i = Some sym) as Hsym.
    { rewrite <- (Nat.add_0_r i), <- lookup_drop, Hdrop. reflexivity. }
    destruct (scan_step_inv _ _ _ _ _ _ _ _ Hf Hc Hsym Hstep) as [Hf' Hc'].
    apply (IH (S i) h v o); try done.
    rewrite (drop_S _ _ _ Hsym) in Hdrop. by injection Hdrop.
Qed.

(** What [process] hands over to the search for the root. *)
Lemma process_inv (head : list Z) (values : list nat) :
  process input = Ok (head, values) →
  forest input (length input) head values [] ∧ counted input (length input) head [].
Proof.
  unfold process. intros H.
  apply bind_Ok_inv in H as ([[h v] o] & Hscan & Hdrain).
  destruct (scan_inv input 0 _ _ _ _ _ _ eq_refl forest_init counted_init Hscan)
    as [Hf Hc].
  exact (drain_inv _ _ _ _ _ _ Hf Hc Hdrain).
Qed.

(** [parse] returns the head array of [process] unchanged, and does so
    exactly when one value is left. *)
Lemma parse_Ok_inv (head : list Z) :
  parse input = Ok head →
  ∃ r, process input = Ok (head, [r]).
Proof.
  unfold parse. intros H. apply bind_Ok_inv in H as ([h values] & Hp & Hfin).
  destruct (process_inv _ _ Hp) as [Hf _].
  destruct values as [|r values]; [discriminate|]. simpl in Hfin.
  apply bind_Ok_inv in Hfin as (h' & Hset & Hfin).
  destruct (decide (length values = 0)) as [Hnil|]; [|discriminate].
  injection Hfin as ->. apply length_zero_iff_nil in Hnil as ->.
  exists r. unfold list_set in Hset. destruct (decide (r < length h)); [|done].
  injection Hset as <-. rewrite list_insert_id; [done|].
  apply (forest_free _ _ _ _ _ Hf). by left.
Qed.
End parser_invariant.

(** ** Properties of the head array returned by [parse] *)

(** C1: when [parse] returns, exactly one position of the head array holds
    ROOT, every other position has a head, following heads from any position
    leads to the root, and there is no cycle: the child-to-head edges form
    one tree over all positions. *)
Theorem parse_dependency_tree (input : list string) (head : list Z) :
  parse input = Ok head → dependency_tree head.
Proof.
  intros Hparse. destruct (parse_Ok_inv _ _ Hparse) as [r Hp].
  destruct (process_inv _ _ _ Hp) as [[Hb Hl Hnd Hlt Hfree Hfresh Hheads Hreach] _].
  assert (head !! r = Some ROOT) as Hr by (apply Hfree; by left).
  assert (∀ c, c < length head → reach head c r) as Hall.
  { intros c Hc. destruct (Hreach c) as (v & Hv & Hcv); [lia|apply not_elem_of_nil|].
    apply list_elem_of_singleton in Hv as ->. done. }
  exists r. split; [done|]. split; [|split; [|split; [done|]]].
  - intros p Hroot. pose proof (lookup_lt_Some _ _ _ Hroot) as Hlt'.
    destruct (Hall p Hlt') as [|c q r' Hc _]; [done|].
    rewrite Hroot in Hc. injection Hc as Hc. by destruct (ROOT_not_position q).
  - intros c Hc Hne. destruct (Hall c Hc) as [|c q r' Hcq _]; [done|].
    exists q. split; [|done].
    destruct (Hheads c _ Hcq) as [Hz|(q' & Hz & Hq')].
    + symmetry in Hz. by destruct (ROOT_not_position q).
    + apply Nat2Z.inj in Hz as ->. lia.
  - intros n c Hcyc.
    assert (c < length head) as Hc.
    { inversion Hcyc as [|n' c' q r' Hcq _]; subst. by apply lookup_lt_Some in Hcq. }
    exact (reach_root_acyclic _ _ _ _ Hr (Hall c Hc) Hcyc).
Qed.

Lemma parse_dependency_tree_witness :
  dependency_tree [1%Z; 2%Z; ROOT; 4%Z; 2%Z].
Proof.
  apply (parse_dependency_tree ["jump"; "left"; "and"; "walk"; "twice"]).
  vm_compute. reflexivity.
Defined.

(** C2: when [parse] returns, every position has as many children in the
    head array as the arity of its symbol. *)
Theorem parse_arity_conservation (input : list string) (head : list Z) :
  parse input = Ok head →
  ∀ p s, input !! p = Some s →
         sym2arity !! s = Some (length (children head p)).
Proof.
  intros Hparse p s Hs. destruct (parse_Ok_inv _ _ Hparse) as [r Hp].
  destruct (process_inv _ _ _ Hp) as [_ [_ Hdone]].
  pose proof (Hdone p (lookup_lt_Some _ _ _ Hs) (not_elem_of_nil p)) as Har.
  unfold arity_at in Har. by rewrite Hs in Har.
Qed.

Lemma parse_arity_conservation_witness :
  sym2arity !! "and" = Some (length (children [1%Z; 2%Z; ROOT; 4%Z; 2%Z] 2)).
Proof.
  apply (parse_arity_conservation ["jump"; "left"; "and"; "walk"; "twice"]).
  - vm_compute. reflexivity.
  - reflexivity.
Defined.

(** C10: when [parse] returns, the head array is as long as the input,
    ROOT is -1, and every entry is -1 or a position of the input. *)
Theorem parse_head_range (input : list string) (head : list Z) :
  parse input = Ok head →
  length head = length input ∧
  ROOT = (-1)%Z ∧
  ∀ c z, head !! c = Some z →
         z = (-1)%Z ∨ (0 ≤ z < Z.of_nat (length input))%Z.
Proof.
  intros Hparse. destruct (parse_Ok_inv _ _ Hparse) as [r Hp].
  destruct (process_inv _ _ _ Hp) as [[Hb Hl Hnd Hlt Hfree Hfresh Hheads Hreach] _].
  split; [done|]. split; [reflexivity|].
  intros c z Hc. destruct (Hheads c z Hc) as [->|(p & -> & Hp')]; [by left|].
  right. lia.
Qed.

Lemma parse_head_range_witness :
  length [1%Z; 2%Z; ROOT; 4%Z; 2%Z] = 5 ∧
  ROOT = (-1)%Z ∧
  ∀ c z, [1%Z; 2%Z; ROOT; 4%Z; 2%Z] !! c = Some z →
         z = (-1)%Z ∨ (0 ≤ z < 5)%Z.
Proof.
  apply (parse_head_range ["jump"; "left"; "and"; "walk"; "twice"]).
  vm_compute. reflexivity.
Defined.

(** ** Exceptions on inputs over the vocabulary *)

Lemma elem_of_vocab (s : string) :
  s ∈ vocab ↔
  s = "turn" ∨ s = "walk" ∨ s = "look" ∨ s = "run" ∨ s = "jump" ∨
  s = "left" ∨ s = "right" ∨ s = "opposite" ∨ s = "around" ∨
  s = "twice" ∨ s = "thrice" ∨ s = "and" ∨ s = "after".
Proof.
  unfold vocab, action_word, dir_word, turn_times_word, times_word, connect_word.
  simpl. rewrite !elem_of_cons, elem_of_nil. tauto.
Qed.

Lemma vocab_arity (s : string) : s ∈ vocab → is_Some (sym2arity !! s).
Proof.
  rewrite elem_of_vocab. intros H.
  repeat (destruct H as [->|H]); try subst s; vm_compute; by eexists.
Qed.

Lemma vocab_precedence (s : string) (k : nat) :
  s ∈ vocab → sym2arity !! s = Some k → k ≠ 0 → is_Some (op2precedence !! s).
Proof.
  rewrite elem_of_vocab. intros H.
  repeat (destruct H as [->|H]); try subst s; vm_compute;
    intros [= <-] Hk; try done; by eexists.
Qed.

Lemma pop_assign_raises (k op : nat) (head : list Z) (values : list nat) (e : exn) :
  pop_assign k op head values = Raise e → e = IndexError.
Proof.
  revert head values. induction k as [|k IH]; intros head values H; [done|].
  destruct values as [|v values]; [by injection H|]. simpl in H.
  unfold list_set in H. destruct (decide (v < length head)); [|by injection H].
  rewrite bind_Ok in H. eauto.
Qed.

Lemma finish_raises (head : list Z) (values : list nat) (e : exn) :
  finish head values = Raise e → malformed_sequence_error e.
Proof.
  destruct values as [|r values]; simpl; [intros [= <-]; by left|].
  unfold list_set. destruct (decide (r < length head)); [|intros [= <-]; by left].
  rewrite bind_Ok. destruct (decide (length values = 0)); [done|].
  intros [= <-]. by right.
Qed.

Section vocabulary_input.
Variable input : list string.
Hypothesis input_vocab : Forall (λ w, w ∈ vocab) input.

Lemma input_arity (p : nat) (s : string) :
  input !! p = Some s → is_Some (sym2arity !! s).
Proof.
  intros Hs. apply vocab_arity.
  rewrite Forall_forall in input_vocab. apply input_vocab.
  by apply list_elem_of_lookup_2 in Hs.
Qed.

Lemma reduce_raises (op : nat) (head : list Z) (values : list nat) (e : exn) :
  has_precedence input op →
  reduce input op head values = Raise e → e = IndexError.
Proof.
  intros (s & Hs & _). unfold reduce, list_get, dict_get. rewrite Hs, bind_Ok.
  destruct (input_arity _ _ Hs) as [k ->]. rewrite bind_Ok.
  destruct (pop_assign k op head values) as [[h v]|e'] eqn:E; [done|].
  intros [= <-]. by apply pop_assign_raises in E.
Qed.

Lemma reduce_while_raises (sym : string) (operators : list nat) :
  ∀ head values,
    Forall (has_precedence input) operators →
    is_Some (op2precedence !! sym) →
    match reduce_while input sym head values operators with
    | Ok (_, _, operators') => Forall (has_precedence input) operators'
    | Raise e => e = IndexError
    end.
Proof.
  induction operators as [|op operators IH]; intros head values Hops [psym Hsym];
    [done|].
  apply Forall_cons in Hops as [Hop Hops]. pose proof Hop as (s & Hs & [ptop Hp]).
  simpl. unfold list_get, dict_get. rewrite Hs, bind_Ok, Hp, bind_Ok, Hsym, bind_Ok.
  destruct (decide (psym ≤ ptop)).
  - destruct (reduce input op head values) as [[h v]|e] eqn:E.
    + rewrite bind_Ok. apply IH; [done|by eexists].
    + by apply reduce_raises in E.
  - by constructor.
Qed.

Lemma scan_step_raises (i : nat) (sym : string) (head : list Z)
    (values operators : list nat) :
  input !! i = Some sym →
  Forall (has_precedence input) operators →
  match scan_step input i sym head values operators with
  | Ok (_, _, operators') => Forall (has_precedence input) operators'
  | Raise e => e = IndexError
  end.
Proof.
  intros Hsym Hops. unfold scan_step, dict_get.
  destruct (input_arity _ _ Hsym) as [k Hk]. rewrite Hk, bind_Ok.
  destruct (decide (k = 0)); [done|].
  assert (is_Some (op2precedence !! sym)) as Hprec.
  { apply (vocab_precedence sym k); [|done|done].
    rewrite Forall_forall in input_vocab. apply input_vocab.
    by apply list_elem_of_lookup_2 in Hsym. }
  pose proof (reduce_while_raises sym operators head values Hops Hprec) as Hrw.
  destruct (reduce_while input sym head values operators) as [[[h v] o]|e]; [|done].
  rewrite bind_Ok. constructor; [|done]. by exists sym.
Qed.

Lemma scan_raises (rest : list string) :
  ∀ i head values operators,
    drop i input = rest →
    Forall (has_precedence input) operators →
    match scan input rest i head values operators with
    | Ok (_, _, operators') => Forall (has_precedence input) operators'
    | Raise e => e = IndexError
    end.
Proof.
  induction rest as [|sym rest IH]; intros i head values operators Hdrop Hops;
    [done|].
  assert (input !! i = Some sym) as Hsym.
  { rewrite <- (Nat.add_0_r i), <- lookup_drop, Hdrop. reflexivity. }
  pose proof (scan_step_raises i sym head values operators Hsym Hops) as Hstep.
  rewrite scan_cons.
  destruct (scan_step input i sym head values operators) as [[[h v] o]|e];
    [|done].
  rewrite bind_Ok. apply IH; [|done].
  rewrite (drop_S _ _ _ Hsym) in Hdrop. by injection Hdrop.
Qed.

Lemma drain_raises (operators : list nat) :
  ∀ head values e,
    Forall (has_precedence input) operators →
    drain input head values operators = Raise e → e = IndexError.
Proof.
  induction operators as [|op operators IH]; intros head values e Hops; [done|].
  apply Forall_cons in Hops as [Hop Hops]. simpl.
  destruct (reduce input op head values) as [[h v]|e'] eqn:E.
  - rewrite bind_Ok. by apply IH.
  - intros [= <-]. by apply reduce_raises in E.
Qed.

(** On an input over the vocabulary every exception of [parse] is a
    malformed-sequence error: no dictionary lookup fails. *)
Lemma parse_raises (e : exn) :
  parse input = Raise e → malformed_sequence_error e.
Proof.
  unfold parse, process.
  pose proof (scan_raises input 0 (replicate (length input) ROOT) [] []
                eq_refl (Forall_nil_2 _)) as Hscan.
  destruct (scan input input 0 (replicate (length input) ROOT) [] [])
    as [[[h v] o]|e'].
  - rewrite bind_Ok.
    destruct (drain input h v o) as [[h' v']|e'] eqn:E.
    + rewrite bind_Ok. apply finish_raises.
    + intros [= <-]. left. by apply drain_raises in E.
  - intros [= <-]. by left.
Qed.
End vocabulary_input.

(** C9: [parse] on a lone connector raises the malformed-sequence error;
    in general a reduction that needs more values than the value stack holds
    raises it, an exception raised by a reduction in either loop or anywhere
    else before the root is looked for is the outcome of [parse], and so is
    the malformed-sequence error when no value or more than one value is
    left after processing; on an input over the vocabulary [parse] raises
    nothing else. *)
Theorem parse_malformed :
  parse ["and"] = Raise IndexError ∧
  (∀ w, w ∈ connect_word → ∃ e, parse [w] = Raise e ∧ malformed_sequence_error e) ∧
  (∀ input op s k head values,
     input !! op = Some s → sym2arity !! s = Some k → length values < k →
     reduce input op head values = Raise IndexError) ∧
  (∀ input sym op s ptop psym head values operators e,
     input !! op = Some s → op2precedence !! s = Some ptop →
     op2precedence !! sym = Some psym → psym ≤ ptop →
     reduce input op head values = Raise e →
     reduce_while input sym head values (op :: operators) = Raise e) ∧
  (∀ input op head values operators e,
     reduce input op head values = Raise e →
     drain input head values (op :: operators) = Raise e) ∧
  (∀ input e, process input = Raise e → parse input = Raise e) ∧
  (∀ input head values,
     process input = Ok (head, values) → length values ≠ 1 →
     ∃ e, parse input = Raise e ∧ malformed_sequence_error e) ∧
  (∀ input e,
     Forall (λ w, w ∈ vocab) input → parse input = Raise e →
     malformed_sequence_error e).
Proof.
  split; [reflexivity|]. split; [|split; [|split; [|split; [|split; [|split]]]]].
  - intros w Hw. exists IndexError. split; [|by left].
    unfold connect_word in Hw. rewrite !elem_of_cons, elem_of_nil in Hw.
    destruct Hw as [->|[->|[]]]; reflexivity.
  - intros input op s k head values Hs Hk Hlen. unfold reduce, list_get, dict_get.
    rewrite Hs, bind_Ok, Hk, bind_Ok. by rewrite pop_assign_underflow.
  - intros input sym op s ptop psym head values operators e Hs Hp Hsym Hle He.
    simpl. unfold list_get, dict_get. rewrite Hs, bind_Ok, Hp, bind_Ok, Hsym, bind_Ok.
    destruct (decide (psym ≤ ptop)); [|done]. by rewrite He.
  - intros input op head values operators e He. simpl. by rewrite He.
  - intros input e He. unfold parse. by rewrite He.
  - intros input head values Hp Hlen. unfold parse. rewrite Hp, bind_Ok.
    destruct values as [|r [|v values]]; simpl in *.
    + exists IndexError. split; [reflexivity|by left].
    + lia.
    + unfold list_set. destruct (decide (r < length head)).
      * exists AssertionError. split; [reflexivity|by right].
      * exists IndexError. split; [reflexivity|by left].
  - intros input e Hv He. exact (parse_raises input Hv e He).
Qed.

Lemma parse_malformed_witness :
  ∃ e, parse ["walk"; "jump"] = Raise e ∧ malformed_sequence_error e.
Proof.
  refine (proj1 (proj2 (proj2 (proj2 (proj2 (proj2 (proj2 parse_malformed))))))
            ["walk"; "jump"] (replicate 2 ROOT) [1; 0] _ _).
  - vm_compute. reflexivity.
  - simpl. lia.
Defined.

(** * Further properties of the code *)

(** ** Word indices *)

Lemma enumerate_dict_from_notin (l : list string) (start : nat)
    (d : gmap string nat) (w : string) :
  w ∉ l → enumerate_dict_from start l d !! w = d !! w.
Proof.
  revert start d. induction l as [|u l IH]; intros start d Hw; [done|].
  apply not_elem_of_cons in Hw as [Hne Hw]. simpl.
  rewrite IH by done. by rewrite lookup_insert_ne.
Qed.

(** The dict comprehension maps a word to the index of its last
    occurrence. *)
Lemma enumerate_dict_from_last (l : list string) (start : nat)
    (d : gmap string nat) (w : string) (i : nat) :
  l !! i = Some w → (∀ j, i < j → l !! j ≠ Some w) →
  enumerate_dict_from start l d !! w = Some (start + i).
Proof.
  revert start d i. induction l as [|u l IH]; intros start d i Hi Hlast; [done|].
  destruct i as [|i]; simpl in *.
  - injection Hi as ->. rewrite enumerate_dict_from_notin.
    + rewrite lookup_insert_eq. f_equal. lia.
    + intros Hin. apply list_elem_of_lookup in Hin as [j Hj].
      exact (Hlast (S j) (Nat.lt_0_succ j) Hj).
  - rewrite (IH (S start) _ i Hi).
    + f_equal. lia.
    + intros j Hj. apply (Hlast (S j)). lia.
Qed.

Lemma enumerate_dict_from_Some (l : list string) (start : nat)
    (d : gmap string nat) (w : string) (n : nat) :
  enumerate_dict_from start l d !! w = Some n →
  ((w ∉ l) ∧ d !! w = Some n) ∨ (∃ i, n = start + i ∧ l !! i = Some w).
Proof.
  revert start d. induction l as [|u l IH]; intros start d H; simpl in H.
  - left. split; [apply not_elem_of_nil|done].
  - destruct (IH _ _ H) as [[Hw Hd]|(i & -> & Hi)].
    + destruct (decide (u = w)) as [->|Hne].
      * rewrite lookup_insert_eq in Hd. injection Hd as <-.
        right. exists 0. split; [lia|done].
      * rewrite lookup_insert_ne in Hd by done. left.
        split; [|done]. rewrite not_elem_of_cons. split; [congruence|done].
    + right. exists (S i). split; [lia|done].
Qed.

Lemma enumerate_dict_NoDup (l : list string) (w : string) (i : nat) :
  NoDup l → (enumerate_dict l !! w = Some i ↔ l !! i = Some w).
Proof.
  intros Hnd. split.
  - intros H. apply enumerate_dict_from_Some in H as [[_ H]|(j & -> & Hj)]; done.
  - intros Hi. unfold enumerate_dict.
    rewrite (enumerate_dict_from_last l 0 ∅ w i Hi); [done|].
    intros j Hj Hw. pose proof (NoDup_lookup _ _ _ _ Hnd Hi Hw). lia.
Qed.

(** X1: the word-to-index dicts invert the word lists: [w2i[w] = i] exactly
    when [i2w[i] = w], and [w2i_output[w] = i] exactly when
    [vocab_output[i] = w]; no word is missing from a dict and none is
    listed twice. *)
Theorem word_index_round_trip (w : string) (i : nat) :
  (w2i !! w = Some i ↔ i2w !! i = Some w) ∧
  (w2i_output !! w = Some i ↔ vocab_output !! i = Some w).
Proof.
  split; apply enumerate_dict_NoDup.
  - apply (bool_decide_unpack _). vm_compute. exact I.
  - apply (bool_decide_unpack _). vm_compute. exact I.
Qed.

(** ** The tables of the grammar *)

Lemma sym2prog_dom (w : string) : is_Some (sym2prog !! w) → w ∈ vocab.
Proof.
  intros H. apply elem_of_dom in H. unfold sym2prog in H.
  rewrite dom_list_to_map_L in H. apply elem_of_list_to_set in H.
  apply elem_of_vocab. simpl in H. rewrite !elem_of_cons, elem_of_nil in H. tauto.
Qed.

Lemma sym2arity_dom (w : string) : is_Some (sym2arity !! w) ↔ w ∈ vocab.
Proof.
  split; [|apply vocab_arity].
  unfold sym2arity. rewrite lookup_fmap. intros H.
  apply fmap_is_Some in H. by apply sym2prog_dom.
Qed.

Lemma op2precedence_dom (w : string) :
  is_Some (op2precedence !! w) →
  w ∈ dir_word ++ turn_times_word ++ times_word ++ connect_word.
Proof.
  intros H. apply elem_of_dom in H. unfold op2precedence, dict_update in H.
  simpl in H. rewrite !dom_insert_L, dom_empty_L in H.
  unfold dir_word, turn_times_word, times_word, connect_word. simpl.
  rewrite !elem_of_cons, elem_of_nil.
  rewrite !elem_of_union, !elem_of_singleton, elem_of_empty in H. tauto.
Qed.

(** X2: the symbols with an arity are exactly the words of the vocabulary,
    and the symbols with a precedence are exactly the vocabulary words whose
    arity is not 0: the base action words have no precedence, every operator
    has one. *)
Theorem arity_precedence_domains (w : string) :
  (is_Some (sym2arity !! w) ↔ w ∈ vocab) ∧
  (is_Some (op2precedence !! w) ↔ w ∈ vocab ∧ sym2arity !! w ≠ Some 0).
Proof.
  split; [apply sym2arity_dom|]. split.
  - intros H. apply op2precedence_dom in H.
    unfold dir_word, turn_times_word, times_word, connect_word in H. simpl in H.
    rewrite !elem_of_cons, elem_of_nil in H.
    split.
    + apply elem_of_vocab. tauto.
    + repeat (destruct H as [->|H]); try done.
  - intros [Hv Har]. apply elem_of_vocab in Hv.
    repeat (destruct Hv as [->|Hv]); try subst w;
      try (by destruct Har); vm_compute; by eexists.
Qed.

(** ** The semantic functions *)

Lemma tuple_mul_Forall (P : Z → Prop) (x : tuple) (n : nat) :
  Forall P x → Forall P (tuple_mul x n).
Proof.
  intros Hx. induction n as [|n IH]; simpl; [constructor|].
  by apply Forall_app.
Qed.

Lemma action_code_token (c : Z) :
  action_code c → ∃ tok, output_token c = Some tok ∧ tok ≠ EmptyString.
Proof.
  unfold action_code. intros Hc.
  assert (c = 1 ∨ c = 2 ∨ c = 3 ∨ c = 4 ∨ c = 5 ∨ c = 6)%Z as H by lia.
  repeat (destruct H as [->|H]); try subst c; eexists; (split; [reflexivity|done]).
Qed.

(** The programs of the table, called on any arguments. *)
Lemma semantics_cases (w : string) (args : list tuple) (r : result tuple) :
  semantics w args = Some r →
  (w = "turn" ∧ args = [] ∧ r = Ok []) ∨
  (w = "walk" ∧ args = [] ∧ r = Ok [1%Z]) ∨
  (w = "look" ∧ args = [] ∧ r = Ok [2%Z]) ∨
  (w = "run" ∧ args = [] ∧ r = Ok [3%Z]) ∨
  (w = "jump" ∧ args = [] ∧ r = Ok [4%Z]) ∨
  (∃ x, w = "left" ∧ args = [x] ∧ r = Ok (5%Z :: x)) ∨
  (∃ x, w = "right" ∧ args = [x] ∧ r = Ok (6%Z :: x)) ∨
  (w = "opposite" ∧ args = [[]] ∧ r = Raise IndexError) ∨
  (∃ a x, w = "opposite" ∧ args = [a :: x] ∧ r = Ok (a :: a :: x)) ∨
  (∃ x, w = "around" ∧ args = [x] ∧ r = Ok (tuple_mul x 4)) ∨
  (∃ x, w = "twice" ∧ args = [x] ∧ r = Ok (tuple_mul x 2)) ∨
  (∃ x, w = "thrice" ∧ args = [x] ∧ r = Ok (tuple_mul x 3)) ∨
  (∃ x y, w = "and" ∧ args = [x; y] ∧ r = Ok (x ++ y)) ∨
  (∃ x y, w = "after" ∧ args = [x; y] ∧ r = Ok (y ++ x)).
Proof.
  unfold semantics. intros H.
  destruct (sym2prog !! w) as [p|] eqn:Ep; [|done].
  assert (w ∈ vocab) as Hv by (apply sym2prog_dom; by eexists).
  apply elem_of_vocab in Hv.
  repeat (destruct Hv as [->|Hv]); try subst w;
    vm_compute in Ep; injection Ep as <-;
    destruct args as [|x [|y [|z args]]]; try discriminate H;
    injection H as <-.
  - tauto.
  - tauto.
  - tauto.
  - tauto.
  - tauto.
  - do 5 right. left. by exists x.
  - do 6 right. left. by exists x.
  - destruct x as [|a x].
    + do 7 right. left. done.
    + do 8 right. left. by exists a, x.
  - do 9 right. left. by exists x.
  - do 10 right. left. by exists x.
  - do 11 right. left. by exists x.
  - do 12 right. left. by exists x, y.
  - do 13 right. by exists x, y.
Qed.

(** Splits the alternatives of [semantics_cases] into one goal each. *)
Ltac semantics_inv H :=
  apply semantics_cases in H;
  repeat (destruct H as [H|H]);
  repeat match type of H with
         | ∃ _, _ => let x := fresh "x" in destruct H as [x H]
         end.

(** X3: called on tuples of action codes between 1 and 6, a semantic
    function that returns gives a tuple of such codes again, each of which
    is the index of a non-empty token of the output vocabulary. *)
Theorem semantics_action_codes (w : string) (args : list tuple) (t : tuple) :
  Forall (Forall action_code) args →
  semantics w args = Some (Ok t) →
  Forall action_code t ∧
  Forall (λ c, ∃ tok, output_token c = Some tok ∧ tok ≠ EmptyString) t.
Proof.
  intros Hargs Hsem.
  assert (Forall action_code t) as Ht.
  { assert (∀ c, (1 ≤ c ≤ 6)%Z → action_code c) as Hcode by done.
    semantics_inv Hsem; destruct Hsem as (-> & -> & [= ->]);
      repeat match goal with
             | H : Forall _ (_ :: _) |- _ => apply Forall_cons in H as [? H]
             | H : Forall _ [] |- _ => clear H
             end;
      auto using tuple_mul_Forall;
      repeat first [ apply Forall_nil_2
                   | apply Forall_cons; split
                   | apply Forall_app; split
                   | assumption
                   | apply Hcode; lia ]. }
  split; [done|]. eapply Forall_impl; [exact Ht|]. apply action_code_token.
Qed.

Lemma semantics_action_codes_witness :
  Forall action_code [5%Z; 4%Z; 5%Z; 4%Z].
Proof.
  refine (proj1 (semantics_action_codes "twice" [[5%Z; 4%Z]] [5%Z; 4%Z; 5%Z; 4%Z] _ _)).
  - repeat constructor; unfold action_code; lia.
  - reflexivity.
Defined.

(** X4: the only semantic function that can raise is that of 'opposite',
    which raises [IndexError] exactly on the empty tuple, as the result of
    'turn' is. *)
Theorem semantics_raises (w : string) (args : list tuple) (e : exn) :
  semantics w args = Some (Raise e) ↔
  w = "opposite" ∧ args = [[]] ∧ e = IndexError.
Proof.
  split.
  - intros H. semantics_inv H;
      destruct H as (-> & -> & H); try discriminate H.
    by injection H as ->.
  - intros (-> & -> & ->). reflexivity.
Qed.

(** ** More about the head array returned by [parse] *)

(** What is known when [parse] returns: one value [r] is left, and the loop
    invariants hold for the whole input with an empty operator stack. *)
Lemma parse_returns_inv (input : list string) (head : list Z) :
  parse input = Ok head →
  ∃ r, forest input (length input) head [r] [] ∧
       counted input (length input) head [].
Proof.
  intros Hparse. destruct (parse_Ok_inv _ _ Hparse) as [r Hp].
  exists r. exact (process_inv _ _ _ Hp).
Qed.

(** X5: [parse] returns only on a non-empty input whose tokens are all in
    the vocabulary; on the empty input and on an input with an unknown
    token it raises. *)
Theorem parse_returns_vocab (input : list string) (head : list Z) :
  parse input = Ok head →
  input ≠ [] ∧ Forall (λ w, w ∈ vocab) input.
Proof.
  intros Hparse. split.
  - intros ->. discriminate Hparse.
  - destruct (parse_returns_inv _ _ Hparse) as (r & _ & [_ Hdone]).
    apply Forall_forall. intros w Hw.
    apply list_elem_of_lookup in Hw as [p Hp].
    pose proof (Hdone p (lookup_lt_Some _ _ _ Hp) (not_elem_of_nil p)) as Har.
    unfold arity_at in Har. rewrite Hp in Har. simpl in Har.
    apply sym2arity_dom. by eexists.
Qed.

Lemma parse_returns_vocab_witness :
  ["jump"; "left"; "and"; "walk"; "twice"] ≠ [] ∧
  Forall (λ w, w ∈ vocab) ["jump"; "left"; "and"; "walk"; "twice"].
Proof.
  apply (parse_returns_vocab _ [1%Z; 2%Z; ROOT; 4%Z; 2%Z]).
  vm_compute. reflexivity.
Defined.

Lemma reach_last_edge (head : list Z) (c r : nat) :
  reach head c r → c ≠ r → ∃ c', head !! c' = Some (Z.of_nat r).
Proof.
  induction 1 as [p|c p r Hc Hreach IH]; intros Hne; [done|].
  destruct (decide (p = r)) as [->|Hpr]; [by exists c|by apply IH].
Qed.

(** X6: in the head array that [parse] returns, only positions of operators
    are heads: a position whose symbol has arity 0 is a leaf, and it is the
    root only when the input is a single token. *)
Theorem parse_heads_are_operators (input : list string) (head : list Z) :
  parse input = Ok head →
  (∀ c p, head !! c = Some (Z.of_nat p) →
          ∃ s k, input !! p = Some s ∧ sym2arity !! s = Some (S k)) ∧
  (∀ r s, head !! r = Some ROOT → input !! r = Some s →
          sym2arity !! s = Some 0 → length input = 1).
Proof.
  intros Hparse.
  destruct (parse_returns_inv _ _ Hparse)
    as (r & [Hb Hl Hnd Hlt Hfree Hfresh Hheads Hreach] & [_ Hdone]).
  assert (∀ c p, head !! c = Some (Z.of_nat p) →
            ∃ s k, input !! p = Some s ∧ sym2arity !! s = Some (S k)) as Hops.
  { intros c p Hc.
    destruct (Hheads c _ Hc) as [Hz|(q & Hz & Hq)].
    { symmetry in Hz. by destruct (ROOT_not_position p). }
    apply Nat2Z.inj in Hz as <-.
    pose proof (Hdone p Hq (not_elem_of_nil p)) as Har.
    unfold arity_at in Har.
    destruct (input !! p) as [s|] eqn:Es; [|done]. simpl in Har.
    apply elem_of_children in Hc.
    destruct (children head p) as [|c0 cs]; [by apply elem_of_nil in Hc|].
    exists s, (length cs). done. }
  split; [exact Hops|].
  intros r' s Hroot Hs Hzero.
  destruct (decide (length input = 1)) as [|Hlen]; [done|exfalso].
  assert (∃ c, c < length input ∧ c ≠ r') as (c & Hc & Hne).
  { pose proof (lookup_lt_Some _ _ _ Hs).
    destruct (decide (r' = 0)) as [->|]; [exists 1|exists 0]; split; lia. }
  assert (r' = r) as ->.
  { destruct (Hreach r') as (v & Hv & Hrv);
      [by apply lookup_lt_Some in Hs|apply not_elem_of_nil|].
    apply list_elem_of_singleton in Hv as ->.
    destruct Hrv as [|a b d Ha _]; [done|].
    rewrite Hroot in Ha. injection Ha as Ha. by destruct (ROOT_not_position b). }
  destruct (Hreach c Hc (not_elem_of_nil c)) as (v & Hv & Hcv).
  apply list_elem_of_singleton in Hv as ->.
  destruct (reach_last_edge _ _ _ Hcv Hne) as [c' Hc'].
  destruct (Hops c' r Hc') as (s' & k & Hs' & Hk).
  rewrite Hs in Hs'. injection Hs' as <-. rewrite Hzero in Hk. discriminate Hk.
Qed.

Lemma parse_heads_are_operators_witness :
  ∃ s k, ["jump"; "left"; "and"; "walk"; "twice"] !! 4 = Some s ∧
         sym2arity !! s = Some (S k).
Proof.
  refine (proj1 (parse_heads_are_operators
                   ["jump"; "left"; "and"; "walk"; "twice"]
                   [1%Z; 2%Z; ROOT; 4%Z; 2%Z] _) 3 4 _).
  - vm_compute. reflexivity.
  - reflexivity.
Defined.

(** X7: on a single token [parse] returns exactly when the token is a base
    action word, and then the head array is [[ROOT]]. *)
Theorem parse_single_token (w : string) (head : list Z) :
  parse [w] = Ok head ↔ w ∈ action_word ∧ head = [ROOT].
Proof.
  split.
  - intros H. destruct (sym2arity !! w) as [k|] eqn:Ek.
    + assert (w ∈ vocab) as Hv by (apply sym2arity_dom; by eexists).
      apply elem_of_vocab in Hv. rewrite elem_of_action_word.
      repeat (destruct Hv as [->|Hv]); try subst w;
        vm_compute in H; try discriminate H; injection H as <-; tauto.
    + unfold parse, process in H. simpl in H. unfold scan_step, dict_get in H.
      rewrite Ek in H. discriminate H.
  - intros [Hw ->]. apply elem_of_action_word in Hw.
    repeat (destruct Hw as [->|Hw]); try subst w; reflexivity.
Qed.

(** ** Counting the edges of the tree *)

Lemma sum_list_with_ext {A : Type} (f g : A → nat) (l : list A) :
  (∀ x, x ∈ l → f x = g x) → sum_list_with f l = sum_list_with g l.
Proof.
  induction l as [|x l IH]; intros H; [done|]. simpl.
  rewrite (H x) by (by left). rewrite IH; [done|].
  intros y Hy. apply H. by right.
Qed.

Lemma sum_list_with_add {A : Type} (f g : A → nat) (l : list A) :
  sum_list_with (λ x, f x + g x) l = sum_list_with f l + sum_list_with g l.
Proof. induction l as [|x l IH]; simpl; lia. Qed.

Lemma length_filter_sum {A : Type} (P : A → Prop) `{∀ x, Decision (P x)}
    (l : list A) :
  length (filter P l) = sum_list_with (λ x, if decide (P x) then 1 else 0) l.
Proof.
  induction l as [|x l IH]; [done|]. rewrite filter_cons. simpl.
  destruct (decide (P x)); simpl; lia.
Qed.

(** Pairs in a relation are counted the same by rows and by columns. *)
Lemma double_count {A B : Type} (R : A → B → Prop) `{∀ a b, Decision (R a b)}
    (cs : list A) (ps : list B) :
  sum_list_with (λ p, length (filter (λ c, R c p) cs)) ps
  = sum_list_with (λ c, length (filter (R c) ps)) cs.
Proof.
  induction cs as [|c cs IH]; simpl.
  - induction ps as [|p ps IHp]; simpl; [done|]. by rewrite IHp.
  - rewrite <- IH, (length_filter_sum (R c)), <- sum_list_with_add.
    apply sum_list_with_ext. intros p _. rewrite filter_cons.
    destruct (decide (R c p)); simpl; lia.
Qed.

Lemma sum_list_with_all_but_one (l : list nat) (r : nat) :
  NoDup l → r ∈ l →
  sum_list_with (λ c, if decide (c = r) then 0 else 1) l + 1 = length l.
Proof.
  induction l as [|x l IH]; intros Hnd Hr; [by apply elem_of_nil in Hr|].
  apply NoDup_cons in Hnd as [Hx Hnd]. simpl.
  destruct (decide (x = r)) as [->|Hne].
  - rewrite (sum_list_with_ext _ (λ _, 1)).
    + clear. induction l as [|y l IH]; simpl; lia.
    + intros c Hc. destruct (decide (c = r)) as [->|]; done.
  - apply elem_of_cons in Hr as [->|Hr]; [done|].
    specialize (IH Hnd Hr). lia.
Qed.

Lemma sum_list_with_positions {A : Type} (f : A → nat) (l : list A) :
  sum_list_with f l
  = sum_list_with (λ i, default 0 (f <$> l !! i)) (seq 0 (length l)).
Proof.
  induction l as [|x l IH] using rev_ind; [done|].
  rewrite length_app, Nat.add_1_r, seq_S, !sum_list_with_app. simpl.
  rewrite list_lookup_middle by done. simpl. f_equal.
  rewrite IH. apply sum_list_with_ext. intros i Hi.
  apply elem_of_seq in Hi. by rewrite lookup_app_l by lia.
Qed.

(** In a head array with one root and a head for every other position, the
    children of all positions together are all positions but the root. *)
Lemma children_total (head : list Z) (r : nat) :
  head !! r = Some ROOT →
  (∀ c, c < length head → c ≠ r →
        ∃ p, p < length head ∧ head !! c = Some (Z.of_nat p)) →
  sum_list_with (λ p, length (children head p)) (seq 0 (length head)) + 1
  = length head.
Proof.
  intros Hr Hheads. unfold children.
  rewrite (double_count (λ c p, head !! c = Some (Z.of_nat p))).
  rewrite (sum_list_with_ext _ (λ c, if decide (c = r) then 0 else 1)).
  - rewrite sum_list_with_all_but_one; [by rewrite length_seq|apply NoDup_seq|].
    apply elem_of_seq. apply lookup_lt_Some in Hr. lia.
  - intros c Hc. apply elem_of_seq in Hc.
    destruct (decide (c = r)) as [->|Hne].
    + apply length_zero_iff_nil, elem_of_nil_inv. intros p Hp.
      apply list_elem_of_filter in Hp as [Hp _]. rewrite Hr in Hp.
      injection Hp as Hp. by destruct (ROOT_not_position p).
    + destruct (Hheads c) as (q & Hq & Hcq); [lia|done|].
      change 1 with (length [q]).
      apply Permutation_length, NoDup_Permutation.
      * apply NoDup_filter, NoDup_seq.
      * apply NoDup_singleton.
      * intros p. rewrite list_elem_of_filter, elem_of_seq, list_elem_of_singleton.
        rewrite Hcq. split.
        -- intros [[= Hp] _]. by apply Nat2Z.inj in Hp.
        -- intros ->. split; [done|lia].
Qed.

(** X8: [parse] returns only on inputs whose arities add up to the number
    of tokens less one: every token but the root is the argument of exactly
    one operator. *)
Theorem parse_total_arity (input : list string) (head : list Z) :
  parse input = Ok head → total_arity input + 1 = length input.
Proof.
  intros Hparse.
  destruct (parse_returns_inv _ _ Hparse)
    as (r & [Hb Hl Hnd Hlt Hfree Hfresh Hheads Hreach] & [_ Hdone]).
  assert (head !! r = Some ROOT) as Hr by (apply Hfree; by left).
  unfold total_arity. rewrite sum_list_with_positions.
  rewrite (sum_list_with_ext _ (λ p, length (children head p))).
  - rewrite <- Hl. apply (children_total head r Hr).
    intros c Hc Hne.
    destruct (Hreach c) as (v & Hv & Hcv); [lia|apply not_elem_of_nil|].
    apply list_elem_of_singleton in Hv as ->.
    destruct Hcv as [|c q r' Hcq _]; [done|].
    exists q. split; [|done].
    destruct (Hheads c _ Hcq) as [Hz|(q' & Hz & Hq')].
    + symmetry in Hz. by destruct (ROOT_not_position q).
    + apply Nat2Z.inj in Hz as ->. lia.
  - intros p Hp. apply elem_of_seq in Hp.
    pose proof (Hdone p ltac:(lia) (not_elem_of_nil p)) as Har.
    unfold arity_at in Har.
    destruct (input !! p) as [s|]; [|done]. simpl in *. by rewrite Har.
Qed.

Lemma parse_total_arity_witness :
  total_arity ["jump"; "left"; "and"; "walk"; "twice"] + 1 = 5.
Proof.
  refine (parse_total_arity ["jump"; "left"; "and"; "walk"; "twice"]
            [1%Z; 2%Z; ROOT; 4%Z; 2%Z] _).
  vm_compute. reflexivity.
Defined.

(** ** [parse] sees a symbol only through its arity and precedence *)

Section same_class_inputs.
Variables input input' : list string.
Hypothesis classes : Forall2 same_class input input'.

Lemma classes_lookup (op : nat) :
  option_Forall2 same_class (input !! op) (input' !! op).
Proof. by apply Forall2_lookup. Qed.

Lemma reduce_same_class (op : nat) (head : list Z) (values : list nat) :
  reduce input op head values = reduce input' op head values.
Proof.
  unfold reduce, list_get.
  destruct (classes_lookup op) as [s s' [Har _]|]; [|done].
  rewrite !bind_Ok. unfold dict_get. by rewrite Har.
Qed.

Lemma reduce_while_same_class (sym sym' : string) (operators : list nat) :
  same_class sym sym' →
  ∀ head values,
    reduce_while input sym head values operators
    = reduce_while input' sym' head values operators.
Proof.
  intros [_ Hprec]. induction operators as [|op operators IH];
    intros head values; [done|].
  simpl. unfold list_get.
  destruct (classes_lookup op) as [s s' [_ Hp]|]; [|done].
  rewrite !bind_Ok. unfold dict_get. rewrite Hp, Hprec.
  destruct (op2precedence !! s') as [ptop|]; [|done]. rewrite !bind_Ok.
  destruct (op2precedence !! sym') as [psym|]; [|done]. rewrite !bind_Ok.
  destruct (decide (psym ≤ ptop)); [|done].
  rewrite reduce_same_class.
  destruct (reduce input' op head values) as [[h v]|e]; [|done].
  rewrite !bind_Ok. apply IH.
Qed.

Lemma scan_step_same_class (i : nat) (sym sym' : string) (head : list Z)
    (values operators : list nat) :
  same_class sym sym' →
  scan_step input i sym head values operators
  = scan_step input' i sym' head values operators.
Proof.
  intros Hc. unfold scan_step, dict_get. rewrite (proj1 Hc).
  destruct (sym2arity !! sym') as [k|]; [|done]. rewrite !bind_Ok.
  destruct (decide (k = 0)); [done|].
  by rewrite (reduce_while_same_class sym sym').
Qed.

Lemma scan_same_class (rest rest' : list string) :
  Forall2 same_class rest rest' →
  ∀ i head values operators,
    scan input rest i head values operators
    = scan input' rest' i head values operators.
Proof.
  induction 1 as [|sym sym' rest rest' Hc _ IH]; intros i head values operators;
    [done|].
  rewrite !scan_cons, (scan_step_same_class i sym sym') by done.
  destruct (scan_step input' i sym' head values operators) as [[[h v] o]|e];
    [|done].
  rewrite !bind_Ok. apply IH.
Qed.

Lemma drain_same_class (operators : list nat) :
  ∀ head values,
    drain input head values operators = drain input' head values operators.
Proof.
  induction operators as [|op operators IH]; intros head values; [done|].
  simpl. rewrite reduce_same_class.
  destruct (reduce input' op head values) as [[h v]|e]; [|done].
  rewrite !bind_Ok. apply IH.
Qed.

End same_class_inputs.

(** X9: [parse] reads a token only through its arity and its precedence:
    two inputs whose tokens agree position by position on both get the same
    outcome, the same head array or the same exception. So one base action
    word can stand for another, 'left' for 'right', 'opposite' for 'around',
    'twice' for 'thrice' and 'and' for 'after'. *)
Theorem parse_same_class (input input' : list string) :
  Forall2 same_class input input' → parse input = parse input'.
Proof.
  intros classes. unfold parse, process.
  rewrite (scan_same_class input input' classes _ _ classes).
  rewrite (Forall2_length _ _ _ classes).
  destruct (scan input' input' 0 (replicate (length input') ROOT) [] [])
    as [[[h v] o]|e]; [|done].
  rewrite !bind_Ok. by rewrite (drain_same_class input input' classes).
Qed.

Lemma parse_same_class_witness :
  parse ["jump"; "left"; "and"; "walk"; "twice"]
  = parse ["turn"; "right"; "after"; "look"; "thrice"].
Proof.
  apply parse_same_class.
  repeat constructor; vm_compute; reflexivity.
Defined.

(** ** More about [transform_input] *)

Lemma swap_from_length (rest : list string) (c w : string) (out : list string) :
  swap_from c (w :: rest) = Ok out → length out = S (length rest).
Proof.
  revert c w out. induction rest as [|x rest IH]; intros c w out;
    rewrite swap_from_cons; destruct (decide (w ∈ turn_times_word)) as [Hw|Hw];
    intros H.
  - discriminate.
  - by injection H as <-.
  - apply bind_Ok_inv in H as (o & Ho & [= <-]). simpl. f_equal. eauto.
  - apply bind_Ok_inv in H as (o & Ho & [= <-]). simpl. f_equal. eauto.
Qed.

(** X10: whatever the input, when the rewrite returns, its output has the
    length of the input and holds only tokens of the input, and a token that
    is not a turn-repeat token and does not follow one stays where it
    was. *)
Theorem transform_input_frame (t out : list string) :
  transform_input t = Ok out →
  length out = length t ∧
  (∀ w, w ∈ out → w ∈ t) ∧
  (∀ i w, t !! i = Some w → w ∉ turn_times_word →
          (∀ j p, i = S j → t !! j = Some p → p ∉ turn_times_word) →
          out !! i = Some w).
Proof.
  intros Hout. pose proof (transform_input_lookup _ _ Hout) as Hlk.
  split; [|split].
  - destruct t as [|w rest]; [by injection Hout as <-|].
    rewrite transform_input_swap_from in Hout. by apply swap_from_length in Hout.
  - intros w Hw. apply list_elem_of_lookup in Hw as [i Hi].
    rewrite Hlk in Hi. unfold swapped_at in Hi.
    destruct (t !! i) as [u|] eqn:Eu; [|done]. simpl in Hi.
    destruct (decide (u ∈ turn_times_word)).
    { by apply list_elem_of_lookup_2 in Hi. }
    destruct i as [|j].
    { injection Hi as <-. by apply list_elem_of_lookup_2 in Eu. }
    destruct (t !! j) as [p|] eqn:Ep; [|done]. simpl in Hi.
    destruct (decide (p ∈ turn_times_word)); injection Hi as <-.
    + by apply list_elem_of_lookup_2 in Ep.
    + by apply list_elem_of_lookup_2 in Eu.
  - intros i w Hi Hw Hprev. rewrite Hlk. unfold swapped_at. rewrite Hi. simpl.
    destruct (decide (w ∈ turn_times_word)); [done|].
    destruct i as [|j]; [done|].
    destruct (t !! j) as [p|] eqn:Ep.
    + simpl. destruct (decide (p ∈ turn_times_word)) as [Hp|]; [|done].
      by destruct (Hprev j p eq_refl Ep).
    + apply lookup_ge_None in Ep. apply lookup_lt_Some in Hi. lia.
Qed.

Lemma transform_input_frame_witness :
  length ["turn"; "left"; "opposite"; "twice"] = 4 ∧
  (∀ w, w ∈ ["turn"; "left"; "opposite"; "twice"] →
        w ∈ ["turn"; "opposite"; "left"; "twice"]) ∧
  (∀ i w, ["turn"; "opposite"; "left"; "twice"] !! i = Some w →
          w ∉ turn_times_word →
          (∀ j p, i = S j → ["turn"; "opposite"; "left"; "twice"] !! j = Some p →
                  p ∉ turn_times_word) →
          ["turn"; "left"; "opposite"; "twice"] !! i = Some w).
Proof.
  apply (transform_input_frame ["turn"; "opposite"; "left"; "twice"]).
  vm_compute. reflexivity.
Defined.

(** ** Reading the data *)

Example load_line_jump_twice :
  load_line "IN: jump twice OUT: I_JUMP I_JUMP"
  = Return (sample_dict ["jump"; "twice"] [1%Z; ROOT] ["I_JUMP"; "I_JUMP"]).
Proof. vm_compute. reflexivity. Qed.

Lemma bind_Return {A B : Type} (a : A) (k : A → outcome B) :
  (Return a ≫= k) = k a.
Proof. reflexivity. Qed.

Lemma bind_Return_inv {A B : Type} (r : outcome A) (k : A → outcome B) (b : B) :
  (r ≫= k) = Return b → ∃ a, r = Return a ∧ k a = Return b.
Proof. destruct r as [a|e]; [eauto|discriminate]. Qed.

Lemma for_each_Return {A B : Type} (f : A → outcome B) (l : list A) (ys : list B) :
  for_each f l = Return ys ↔ Forall2 (λ x y, f x = Return y) l ys.
Proof.
  revert ys. induction l as [|x l IH]; intros ys; simpl.
  - split; [intros [= <-]; constructor|by inversion 1].
  - split.
    + intros H. apply bind_Return_inv in H as (y & Hy & H).
      apply bind_Return_inv in H as (ys' & Hys & [= <-]).
      constructor; [done|by apply IH].
    + inversion 1 as [|? y ? ys' Hy Hys]; subst.
      apply IH in Hys. by rewrite Hy, bind_Return, Hys.
Qed.

Lemma for_each_Throw {A B : Type} (f : A → outcome B) (l : list A) (e : exception) :
  for_each f l = Throw e → ∃ x, x ∈ l ∧ f x = Throw e.
Proof.
  induction l as [|x l IH]; simpl; [done|].
  destruct (f x) as [y|e'] eqn:Ex.
  - rewrite bind_Return. destruct (for_each f l) as [ys|e'] eqn:El; [done|].
    intros [= <-]. destruct (IH eq_refl) as (x' & Hx' & Hf).
    exists x'. split; [by right|done].
  - intros [= <-]. exists x. split; [by left|done].
Qed.

Lemma py_split_length (sep : Ascii.ascii) (s : string) :
  length (py_split sep s) = S (occurrences sep s).
Proof.
  induction s as [|c s IH]; simpl; [done|].
  destruct (decide (c = sep)); simpl; [by rewrite IH|].
  destruct (py_split sep s) as [|part parts]; [done|]. simpl in *. lia.
Qed.

(** X11: one line of the data file is rejected with [ValueError] exactly
    when it does not hold two colons; no other step of the loading raises
    this exception. *)
Theorem load_line_ValueError (line : string) :
  load_line line = Throw ValueError ↔ occurrences colon line ≠ 2.
Proof.
  pose proof (py_split_length colon line) as Hlen. unfold load_line.
  destruct (py_split colon line) as [|a [|b [|c [|d parts]]]]; simpl in Hlen;
    try (split; [intros _; lia|done]).
  split; [|lia]. intros H. exfalso.
  destruct (transform_input (drop_last (py_words (py_strip b)))) as [input|e];
    [|discriminate H].
  simpl in H. destruct (parse input) as [head|e]; discriminate H.
Qed.

(** X12: a line whose command field holds fewer than two words leaves no
    token once the last word is dropped, and is rejected with the
    [IndexError] that [parse] raises on the empty input. *)
Theorem load_line_short_command (line a command_field output_field : string) :
  py_split colon line = [a; command_field; output_field] →
  length (py_words (py_strip command_field)) ≤ 1 →
  load_line line = Throw (Exn IndexError).
Proof.
  intros Hsplit Hlen. unfold load_line. rewrite Hsplit.
  assert (drop_last (py_words (py_strip command_field)) = []) as ->.
  { unfold drop_last.
    replace (length (py_words (py_strip command_field)) - 1) with 0 by lia.
    apply take_0. }
  reflexivity.
Qed.

Lemma load_line_short_command_witness :
  load_line "IN: jump: I_JUMP" = Throw (Exn IndexError).
Proof.
  apply (load_line_short_command _ "IN" " jump" " I_JUMP").
  - vm_compute. reflexivity.
  - vm_compute. lia.
Defined.

(** The tree of C1, from the invariants at the end of [parse]. *)
Lemma forest_dependency_tree (input : list string) (head : list Z) (r : nat) :
  forest input (length input) head [r] [] → dependency_tree head.
Proof.
  intros [Hb Hl Hnd Hlt Hfree Hfresh Hheads Hreach].
  assert (head !! r = Some ROOT) as Hr by (apply Hfree; by left).
  assert (∀ c, c < length head → reach head c r) as Hall.
  { intros c Hc. destruct (Hreach c) as (v & Hv & Hcv); [lia|apply not_elem_of_nil|].
    by apply list_elem_of_singleton in Hv as ->. }
  assert (∀ c, c < length head → c ≠ r → ∃ q, head !! c = Some (Z.of_nat q))
    as Hedge.
  { intros c Hc Hne. destruct (Hall c Hc) as [|c q r' Hcq _]; [done|by exists q]. }
  exists r. split; [done|]. split; [|split; [|split; [done|]]].
  - intros p Hroot. destruct (decide (p = r)) as [|Hne]; [done|].
    destruct (Hedge p (lookup_lt_Some _ _ _ Hroot) Hne) as [q Hq].
    rewrite Hroot in Hq. injection Hq as Hq. by destruct (ROOT_not_position q).
  - intros c Hc Hne. destruct (Hedge c Hc Hne) as [q Hq]. exists q. split; [|done].
    destruct (Hheads c _ Hq) as [Hz|(q' & Hz & Hq')].
    + symmetry in Hz. by destruct (ROOT_not_position q).
    + apply Nat2Z.inj in Hz as ->. lia.
  - intros n c Hcyc. apply (reach_root_acyclic head n c r Hr); [|done].
    apply Hall. inversion Hcyc as [|n' c' q r' Hcq _]; subst.
    by apply lookup_lt_Some in Hcq.
Qed.

(** What [load_line] returns. *)
Lemma load_line_Return (line : string) (d : gmap string pyval) :
  load_line line = Return d →
  ∃ a command_field output_field input head,
    py_split colon line = [a; command_field; output_field] ∧
    transform_input (drop_last (py_words (py_strip command_field))) = Ok input ∧
    parse input = Ok head ∧
    d = sample_dict input head (py_words (py_strip output_field)).
Proof.
  unfold load_line. intros H.
  destruct (py_split colon line) as [|a [|b [|c [|? ?]]]]; try discriminate H.
  destruct (transform_input (drop_last (py_words (py_strip b)))) as [input|e] eqn:Et;
    [|discriminate H].
  simpl in H. destruct (parse input) as [head|e] eqn:Ep; [|discriminate H].
  injection H as <-. by exists a, b, c, input, head.
Qed.

Lemma transform_input_length (t out : list string) :
  transform_input t = Ok out → length out = length t.
Proof.
  destruct t as [|w rest]; [by intros [= <-]|].
  rewrite transform_input_swap_from. apply swap_from_length.
Qed.

(** X13: when [load_data] returns, it returns one sample per line, in the
    order of the lines, and in every sample the input is a non-empty
    sequence of vocabulary words with one token fewer than the command field
    has words, its head array is a dependency tree of the same length in
    which every position has as many children as its symbol's arity, and the
    output holds the words of the third field. *)
Theorem load_data_samples (lines : list string) (samples : list (gmap string pyval)) :
  load_data lines = Return samples →
  Forall2 (λ line d,
    ∃ a command_field output_field input head,
      py_split colon line = [a; command_field; output_field] ∧
      d = sample_dict input head (py_words (py_strip output_field)) ∧
      input ≠ [] ∧ Forall (λ w, w ∈ vocab) input ∧
      S (length input) = length (py_words (py_strip command_field)) ∧
      length head = length input ∧
      dependency_tree head ∧
      ∀ p s, input !! p = Some s →
             sym2arity !! s = Some (length (children head p)))
    lines samples.
Proof.
  unfold load_data. intros H. apply for_each_Return in H.
  eapply Forall2_impl; [exact H|]. clear. intros line d Hd. simpl in Hd.
  apply load_line_Return in Hd
    as (a & cf & outf & input & head & Hsplit & Htr & Hparse & ->).
  exists a, cf, outf, input, head. split; [done|]. split; [done|].
  destruct (parse_returns_inv _ _ Hparse) as (r & Hf & [_ Hdone]).
  assert (input ≠ []) as Hne by (intros ->; discriminate Hparse).
  split; [done|]. split; [|split; [|split; [|split]]].
  - apply Forall_forall. intros w Hw.
    apply list_elem_of_lookup in Hw as [p Hp].
    pose proof (Hdone p (lookup_lt_Some _ _ _ Hp) (not_elem_of_nil p)) as Har.
    unfold arity_at in Har. rewrite Hp in Har. simpl in Har.
    apply sym2arity_dom. by eexists.
  - apply transform_input_length in Htr. rewrite Htr. unfold drop_last.
    rewrite length_take.
    destruct (py_words (py_strip cf)) as [|w ws] eqn:Ew; simpl; [|lia].
    unfold drop_last in Htr. simpl in Htr.
    destruct input; [done|discriminate Htr].
  - exact (forest_len _ _ _ _ _ Hf).
  - exact (forest_dependency_tree _ _ _ Hf).
  - intros p s Hs.
    pose proof (Hdone p (lookup_lt_Some _ _ _ Hs) (not_elem_of_nil p)) as Har.
    unfold arity_at in Har. by rewrite Hs in Har.
Qed.

Lemma load_data_samples_witness :
  Forall2 (λ line d,
    ∃ a command_field output_field input head,
      py_split colon line = [a; command_field; output_field] ∧
      d = sample_dict input head (py_words (py_strip output_field)) ∧
      input ≠ [] ∧ Forall (λ w, w ∈ vocab) input ∧
      S (length input) = length (py_words (py_strip command_field)) ∧
      length head = length input ∧
      dependency_tree head ∧
      ∀ p s, input !! p = Some s →
             sym2arity !! s = Some (length (children head p)))
    ["IN: jump twice OUT: I_JUMP I_JUMP"]
    [sample_dict ["jump"; "twice"] [1%Z; ROOT] ["I_JUMP"; "I_JUMP"]].
Proof.
  apply load_data_samples. vm_compute. reflexivity.
Defined.

(** ** The dataset object *)

Lemma in_range_within (min_len max_len : option Z) (n : Z) :
  in_range min_len max_len n = true ↔ within min_len max_len n.
Proof.
  unfold in_range, within. rewrite andb_true_iff, bool_decide_eq_true.
  destruct max_len as [m|]; [rewrite bool_decide_eq_true|]; tauto.
Qed.

Lemma len_in_range_Return (min_len max_len : option Z) (x : gmap string pyval)
    (keep : bool) :
  len_in_range min_len max_len x = Return keep →
  ∃ n, x !! "len" = Some (PInt n) ∧ keep = in_range min_len max_len n.
Proof.
  unfold len_in_range, getitem. destruct (x !! "len") as [[n|s|l]|]; try done.
  rewrite bind_Return. intros [= <-]. by exists n.
Qed.

(** The ids that the comprehension of [filter_by_len] collects. *)
Lemma filter_ids_spec (min_len max_len : option Z)
    (samples : list (gmap string pyval)) :
  ∀ i ids,
    filter_ids min_len max_len i samples = Return ids →
    StronglySorted lt ids ∧
    ∀ k, k ∈ ids ↔
         ∃ j x n, k = i + j ∧ samples !! j = Some x ∧
                  x !! "len" = Some (PInt n) ∧ within min_len max_len n.
Proof.
  induction samples as [|x samples IH]; intros i ids H; simpl in H.
  - injection H as <-. split; [constructor|].
    intros k. split; [by intros ?%elem_of_nil|by intros (j & ? & ? & _ & ? & _)].
  - apply bind_Return_inv in H as (keep & Hkeep & H).
    apply bind_Return_inv in H as (ids' & Hids & [= <-]).
    apply len_in_range_Return in Hkeep as (n & Hn & ->).
    destruct (IH _ _ Hids) as [Hsorted Hmem].
    assert (∀ k, k ∈ ids' → i < k) as Hlt.
    { intros k Hk. apply Hmem in Hk as (j & _ & _ & -> & _). lia. }
    assert (∀ k, k ∈ ids' ↔
              ∃ j y m, k = i + S j ∧ (x :: samples) !! S j = Some y ∧
                       y !! "len" = Some (PInt m) ∧ within min_len max_len m)
      as Htail.
    { intros k. rewrite Hmem. split; intros (j & y & m & -> & Hrest);
        exists j, y, m; (split; [lia|done]). }
    destruct (in_range min_len max_len n) eqn:Ein.
    + apply in_range_within in Ein. split.
      * constructor; [done|]. by apply Forall_forall.
      * intros k. rewrite elem_of_cons, Htail. split.
        -- intros [->|(j & y & m & Hk)].
           ++ exists 0, x, n. split; [lia|done].
           ++ by exists (S j), y, m.
        -- intros ([|j] & y & m & -> & Hy & Hm & Hw).
           ++ left. lia.
           ++ right. by exists j, y, m.
    + split; [done|]. intros k. rewrite Htail. split.
      * intros (j & y & m & Hk). by exists (S j), y, m.
      * intros ([|j] & y & m & -> & Hy & Hm & Hw).
        -- injection Hy as <-. rewrite Hn in Hm. injection Hm as <-.
           apply in_range_within in Hw. congruence.
        -- by exists j, y, m.
Qed.

(** X14: when [filter_by_len] returns, the samples are untouched and
    [valid_ids] holds, in increasing order and without repetition, exactly
    the positions of the samples whose [len] lies within the bounds, where
    a bound left out is -1 below and none above. *)
Theorem filter_by_len_ids (self self' : SCAN) (min_len max_len : option Z) :
  filter_by_len self min_len max_len = Return self' →
  dataset self' = dataset self ∧
  StronglySorted lt (valid_ids self') ∧
  ids_valid self' ∧
  ∀ k, k ∈ valid_ids self' ↔
       ∃ x n, dataset self !! k = Some x ∧ x !! "len" = Some (PInt n) ∧
              within min_len max_len n.
Proof.
  unfold filter_by_len. intros H.
  apply bind_Return_inv in H as (ids & Hids & [= <-]). simpl.
  destruct (filter_ids_spec _ _ _ _ _ Hids) as [Hsorted Hmem].
  split; [done|]. split; [done|]. split.
  - apply Forall_forall. intros k Hk.
    apply Hmem in Hk as (j & x & n & -> & Hx & _). by apply lookup_lt_Some in Hx.
  - intros k. rewrite Hmem. split.
    + intros (j & x & n & -> & Hrest). by exists x, n.
    + intros (x & n & Hrest). by exists k, x, n.
Qed.

Lemma filter_by_len_ids_witness :
  1 ∈ [1] ↔
  ∃ (x : gmap string pyval) n,
    [ <["len" := PInt 2]> ∅; <["len" := PInt 5]> ∅ ] !! 1 = Some x ∧
    x !! "len" = Some (PInt n) ∧ within (Some 3%Z) None n.
Proof.
  refine (proj2 (proj2 (proj2 (filter_by_len_ids
    {| dataset := [ <["len" := PInt 2]> ∅; <["len" := PInt 5]> ∅ ] ;
       valid_ids := [0; 1] |}
    {| dataset := [ <["len" := PInt 2]> ∅; <["len" := PInt 5]> ∅ ] ;
       valid_ids := [1] |}
    (Some 3%Z) None _))) 1).
  vm_compute. reflexivity.
Defined.

Lemma py_len_nonneg (v : pyval) (n : Z) : py_len v = Return n → (0 ≤ n)%Z.
Proof. destruct v; simpl; intros [= <-]; lia. Qed.

Lemma set_len_Return (d d' : gmap string pyval) :
  set_len d = Return d' →
  ∃ v n, d !! "input" = Some v ∧ py_len v = Return n ∧ d' = <["len" := PInt n]> d.
Proof.
  unfold set_len, getitem. destruct (d !! "input") as [v|]; [|done].
  rewrite bind_Return. destruct (py_len v) as [n|] eqn:En; [|done].
  rewrite bind_Return. intros [= <-]. by exists v, n.
Qed.

(** X15: when the end of [__init__] returns, every id from 0 up to the
    number of loaded samples is valid, in this order, and every sample is the
    loaded one with the length of its input added under 'len', an int that
    is not negative. *)
Theorem init_dataset_spec (loaded : list (gmap string pyval)) (self : SCAN) :
  init_dataset loaded = Return self →
  valid_ids self = seq 0 (length loaded) ∧
  SCAN_len self = length loaded ∧
  ids_valid self ∧
  Forall has_len (dataset self) ∧
  Forall2 (λ d d', ∃ v n, d !! "input" = Some v ∧ py_len v = Return n ∧
                          d' = <["len" := PInt n]> d)
          loaded (dataset self).
Proof.
  unfold init_dataset. intros H.
  apply bind_Return_inv in H as (samples & Hs & [= <-]). simpl.
  apply for_each_Return in Hs. pose proof (Forall2_length _ _ _ Hs) as Hlen.
  unfold SCAN_len, ids_valid. simpl. rewrite length_seq, <- Hlen.
  split; [done|]. split; [done|]. split; [|split].
  - apply Forall_forall. intros i Hi. apply elem_of_seq in Hi. lia.
  - clear Hlen. induction Hs as [|d d' ? ? Hd _ IH]; constructor; [|done].
    apply set_len_Return in Hd as (v & n & _ & Hn & ->).
    exists n. split; [apply lookup_insert_eq|by apply py_len_nonneg in Hn].
  - eapply Forall2_impl; [exact Hs|]. intros d d'. apply set_len_Return.
Qed.

Lemma init_dataset_spec_witness :
  valid_ids {| dataset := [ <["len" := PInt 2]> (sample_dict ["jump"; "twice"]
                                                   [1%Z; ROOT] ["I_JUMP"; "I_JUMP"]) ] ;
               valid_ids := [0] |}
  = seq 0 (length [sample_dict ["jump"; "twice"] [1%Z; ROOT] ["I_JUMP"; "I_JUMP"]]).
Proof.
  refine (proj1 (init_dataset_spec
    [sample_dict ["jump"; "twice"] [1%Z; ROOT] ["I_JUMP"; "I_JUMP"]] _ _)).
  vm_compute. reflexivity.
Defined.

Lemma filter_ids_has_len (min_len max_len : option Z)
    (samples : list (gmap string pyval)) :
  Forall has_len samples →
  ∀ i, ∃ ids, filter_ids min_len max_len i samples = Return ids.
Proof.
  induction 1 as [|x samples (n & Hn & _) _ IH]; intros i; simpl; [by eexists|].
  unfold len_in_range, getitem. rewrite Hn, !bind_Return.
  destruct (IH (S i)) as [ids ->]. rewrite bind_Return. by eexists.
Qed.

Lemma filter_ids_unbounded (samples : list (gmap string pyval)) :
  Forall has_len samples →
  ∀ i, filter_ids None None i samples = Return (seq i (length samples)).
Proof.
  induction 1 as [|x samples (n & Hn & Hpos) _ IH]; intros i; simpl; [done|].
  unfold len_in_range, getitem. rewrite Hn, !bind_Return, IH, bind_Return.
  unfold in_range. simpl. by rewrite bool_decide_eq_true_2 by lia.
Qed.

(** X16: on an object whose samples all have a non-negative int [len], as
    [__init__] leaves them, [filter_by_len] never raises; without bounds it
    makes every sample valid again; and a filter applied after another one
    selects from all samples, not from what the first one had left. *)
Theorem filter_by_len_restarts (self : SCAN) (min_len max_len : option Z) :
  Forall has_len (dataset self) →
  (∃ self', filter_by_len self min_len max_len = Return self') ∧
  filter_by_len self None None
  = Return {| dataset := dataset self ;
              valid_ids := seq 0 (length (dataset self)) |} ∧
  (∀ a b self1, filter_by_len self a b = Return self1 →
                filter_by_len self1 min_len max_len
                = filter_by_len self min_len max_len).
Proof.
  intros Hlen. split; [|split].
  - unfold filter_by_len.
    destruct (filter_ids_has_len min_len max_len _ Hlen 0) as [ids ->].
    by eexists.
  - unfold filter_by_len. by rewrite filter_ids_unbounded.
  - intros a b self1 H. unfold filter_by_len in *.
    apply bind_Return_inv in H as (ids & _ & [= <-]). reflexivity.
Qed.

Lemma filter_by_len_restarts_witness :
  ∃ self', filter_by_len {| dataset := [ <["len" := PInt 2]> ∅ ] ; valid_ids := [] |}
             (Some 3%Z) None = Return self'.
Proof.
  refine (proj1 (filter_by_len_restarts
    {| dataset := [ <["len" := PInt 2]> ∅ ] ; valid_ids := [] |} (Some 3%Z) None _)).
  repeat constructor. exists 2%Z. split; [reflexivity|lia].
Defined.

Lemma py_index_nonneg {A : Type} (l : list A) (i : Z) :
  (0 ≤ i)%Z →
  py_index l i = match l !! Z.to_nat i with
                 | Some x => Return x
                 | None => Throw (Exn IndexError)
                 end.
Proof.
  intros Hi. unfold py_index.
  destruct (decide (i < 0)%Z); [lia|]. by destruct (decide (0 ≤ i)%Z).
Qed.

Lemma py_index_negative {A : Type} (l : list A) (i : Z) :
  (- Z.of_nat (length l) ≤ i < 0)%Z →
  py_index l i = py_index l (i + Z.of_nat (length l)).
Proof.
  intros Hi. rewrite (py_index_nonneg l (i + Z.of_nat (length l))) by lia.
  unfold py_index. destruct (decide (i < 0)%Z); [|lia].
  by destruct (decide (0 ≤ i + Z.of_nat (length l))%Z); [|lia].
Qed.

Lemma py_index_out_of_range {A : Type} (l : list A) (i : Z) :
  (i < - Z.of_nat (length l) ∨ Z.of_nat (length l) ≤ i)%Z →
  py_index l i = Throw (Exn IndexError).
Proof.
  intros Hi. unfold py_index. destruct (decide (i < 0)%Z).
  - destruct (decide (0 ≤ i + Z.of_nat (length l))%Z); [lia|done].
  - destruct (decide (0 ≤ i)%Z); [|done].
    rewrite lookup_ge_None_2; [done|lia].
Qed.

Lemma py_index_Return {A : Type} (l : list A) (i : Z) (x : A) :
  py_index l i = Return x → ∃ j, l !! j = Some x.
Proof.
  unfold py_index. intros H.
  destruct (decide (0 ≤ _)%Z); [|done].
  destruct (l !! _) as [y|] eqn:Ey; [|done]. injection H as <-. eauto.
Qed.

(** X17: on an object whose valid ids are positions of the dataset, as
    [__init__] and [filter_by_len] leave it, [__getitem__] at an index from
    0 up to [__len__] returns the sample at the id stored there, a negative
    index down to minus [__len__] counts from the end, and every other index
    raises [IndexError]. *)
Theorem SCAN_getitem_spec (self : SCAN) (index : Z) :
  ids_valid self →
  (0 ≤ index < Z.of_nat (SCAN_len self) →
     ∃ k x, valid_ids self !! Z.to_nat index = Some k ∧
            dataset self !! k = Some x ∧
            SCAN_getitem self index = Return x)%Z ∧
  (- Z.of_nat (SCAN_len self) ≤ index < 0 →
     SCAN_getitem self index
     = SCAN_getitem self (index + Z.of_nat (SCAN_len self)))%Z ∧
  (index < - Z.of_nat (SCAN_len self) ∨ Z.of_nat (SCAN_len self) ≤ index →
     SCAN_getitem self index = Throw (Exn IndexError))%Z.
Proof.
  unfold ids_valid, SCAN_len, SCAN_getitem. intros Hvalid.
  split; [|split].
  - intros Hi.
    destruct (lookup_lt_is_Some_2 (valid_ids self) (Z.to_nat index)) as [k Hk];
      [lia|].
    rewrite Forall_forall in Hvalid.
    destruct (lookup_lt_is_Some_2 (dataset self) k) as [x Hx].
    { apply Hvalid. by apply list_elem_of_lookup_2 in Hk. }
    exists k, x. split; [done|]. split; [done|].
    rewrite py_index_nonneg, Hk, bind_Return by lia.
    by rewrite py_index_nonneg, Nat2Z.id, Hx by lia.
  - intros Hi. by rewrite py_index_negative.
  - intros Hi. by rewrite py_index_out_of_range.
Qed.

Lemma SCAN_getitem_spec_witness :
  SCAN_getitem {| dataset := [ <["len" := PInt 2]> ∅ ] ; valid_ids := [0] |} (-1)
  = SCAN_getitem {| dataset := [ <["len" := PInt 2]> ∅ ] ; valid_ids := [0] |} 0.
Proof.
  refine (proj1 (proj2 (SCAN_getitem_spec
    {| dataset := [ <["len" := PInt 2]> ∅ ] ; valid_ids := [0] |} (-1) _)) _).
  - repeat constructor.
  - unfold SCAN_len. simpl. lia.
Defined.

(** X18: after [filter_by_len], every sample that [__getitem__] returns is a
    sample of the dataset whose [len] lies within the bounds. *)
Theorem filter_by_len_getitem (self self' : SCAN) (min_len max_len : option Z)
    (index : Z) (x : gmap string pyval) :
  filter_by_len self min_len max_len = Return self' →
  SCAN_getitem self' index = Return x →
  x ∈ dataset self ∧
  ∃ n, x !! "len" = Some (PInt n) ∧ within min_len max_len n.
Proof.
  unfold filter_by_len, SCAN_getitem. intros Hf Hg.
  apply bind_Return_inv in Hf as (ids & Hids & [= <-]). simpl in Hg.
  apply bind_Return_inv in Hg as (k & Hk & Hx).
  apply py_index_Return in Hk as [j Hj]. apply list_elem_of_lookup_2 in Hj.
  destruct (filter_ids_spec _ _ _ _ _ Hids) as [_ Hmem].
  apply Hmem in Hj as (j' & y & n & -> & Hy & Hn & Hw). simpl in Hx.
  rewrite py_index_nonneg, Nat2Z.id, Hy in Hx by lia. injection Hx as <-.
  split; [by apply list_elem_of_lookup_2 in Hy|by exists n].
Qed.

Lemma filter_by_len_getitem_witness :
  (<["len" := PInt 5]> ∅ : gmap string pyval)
    ∈ [ <["len" := PInt 2]> ∅; <["len" := PInt 5]> ∅ ] ∧
  ∃ n, (<["len" := PInt 5]> ∅ : gmap string pyval) !! "len" = Some (PInt n) ∧
       within (Some 3%Z) None n.
Proof.
  refine (filter_by_len_getitem
    {| dataset := [ <["len" := PInt 2]> ∅; <["len" := PInt 5]> ∅ ] ;
       valid_ids := [0; 1] |} _ (Some 3%Z) None 0 _ _ _).
  - vm_compute. reflexivity.
  - vm_compute. reflexivity.
Defined.

(** ** Batching: [collate] *)

Lemma elem_of_collate_keys (k : string) :
  k ∈ collate_keys ↔
  k = "input" ∨ k = "sentence" ∨ k = "head" ∨ k = "output" ∨ k = "len".
Proof. unfold collate_keys. rewrite !elem_of_cons, elem_of_nil. tauto. Qed.

Lemma collate_row_Return (s : gmap string pyval) (i se h o l : pyval) :
  collate_row s = Return (i, se, h, o, l) ↔
  s !! "input" = Some i ∧ s !! "sentence" = Some se ∧ s !! "head" = Some h ∧
  s !! "output" = Some o ∧ s !! "len" = Some l.
Proof.
  unfold collate_row, getitem. split.
  - intros H.
    destruct (s !! "input"); [|done]. destruct (s !! "sentence"); [|done].
    destruct (s !! "head"); [|done]. destruct (s !! "output"); [|done].
    destruct (s !! "len"); [|done]. by injection H as -> -> -> -> ->.
  - by intros (-> & -> & -> & -> & ->).
Qed.

Lemma collate_row_Throw (s : gmap string pyval) (e : exception) :
  collate_row s = Throw e →
  e = Exn KeyError ∧ ∃ k, k ∈ collate_keys ∧ s !! k = None.
Proof.
  unfold collate_row, getitem. intros H.
  destruct (s !! "input") eqn:E1;
    [|injection H as <-; split; [done|]; exists "input";
      split; [apply elem_of_collate_keys; tauto|done]].
  destruct (s !! "sentence") eqn:E2;
    [|injection H as <-; split; [done|]; exists "sentence";
      split; [apply elem_of_collate_keys; tauto|done]].
  destruct (s !! "head") eqn:E3;
    [|injection H as <-; split; [done|]; exists "head";
      split; [apply elem_of_collate_keys; tauto|done]].
  destruct (s !! "output") eqn:E4;
    [|injection H as <-; split; [done|]; exists "output";
      split; [apply elem_of_collate_keys; tauto|done]].
  destruct (s !! "len") eqn:E5;
    [done|injection H as <-; split; [done|]; exists "len";
      split; [apply elem_of_collate_keys; tauto|done]].
Qed.

(** X19: [collate] returns exactly when every sample of the batch has the
    five keys 'input', 'sentence', 'head', 'output' and 'len', and raises
    [KeyError] otherwise; the dict it returns has these five keys and no
    other, and holds under each key the list of the samples' values for that
    key, in the order of the batch. *)
Theorem collate_spec (batch : list (gmap string pyval)) :
  (∀ d, collate batch = Return d →
     (∀ k, k ∈ collate_keys →
           ∃ col, d !! k = Some (PList col) ∧
                  Forall2 (λ s v, s !! k = Some v) batch col) ∧
     (∀ k, k ∉ collate_keys → d !! k = None)) ∧
  ((∃ d, collate batch = Return d) ↔
     Forall (λ s, ∀ k, k ∈ collate_keys → is_Some (s !! k)) batch) ∧
  (∀ e, collate batch = Throw e → e = Exn KeyError).
Proof.
  split; [|split].
  - unfold collate. intros d H.
    apply bind_Return_inv in H as (rows & Hrows & [= <-]).
    apply for_each_Return in Hrows. split.
    + intros k Hk. apply elem_of_collate_keys in Hk.
      destruct Hk as [->|[->|[->|[->| ->]]]]; eexists; (split; [reflexivity|]);
        apply Forall2_fmap_r; (eapply Forall2_impl; [exact Hrows|]);
        intros s [[[[i se] h] o] l] Hrow; apply collate_row_Return in Hrow; tauto.
    + intros k Hk. rewrite elem_of_collate_keys in Hk.
      rewrite !lookup_insert_ne by (intros <-; tauto). done.
  - split.
    + intros [d H]. unfold collate in H.
      apply bind_Return_inv in H as (rows & Hrows & _).
      apply for_each_Return in Hrows.
      induction Hrows as [|s [[[[i se] h] o] l] ? ? Hrow _ IH]; constructor; [|done].
      apply collate_row_Return in Hrow as (H1 & H2 & H3 & H4 & H5).
      intros k Hk. apply elem_of_collate_keys in Hk.
      destruct Hk as [->|[->|[->|[->| ->]]]]; by eexists.
    + intros Hall.
      assert (∃ rows, for_each collate_row batch = Return rows) as [rows Hrows].
      { induction Hall as [|s batch Hs _ [rows IH]]; [by eexists|].
        destruct (Hs "input") as [i Hi]; [apply elem_of_collate_keys; tauto|].
        destruct (Hs "sentence") as [se Hse]; [apply elem_of_collate_keys; tauto|].
        destruct (Hs "head") as [h Hh]; [apply elem_of_collate_keys; tauto|].
        destruct (Hs "output") as [o Ho]; [apply elem_of_collate_keys; tauto|].
        destruct (Hs "len") as [l Hl]; [apply elem_of_collate_keys; tauto|].
        exists ((i, se, h, o, l) :: rows). simpl.
        rewrite (proj2 (collate_row_Return s i se h o l)) by done.
        by rewrite bind_Return, IH. }
      unfold collate. rewrite Hrows. by eexists.
  - unfold collate. intros e H.
    destruct (for_each collate_row batch) as [rows|e'] eqn:E; [done|].
    injection H as <-. apply for_each_Throw in E as (s & _ & Hs).
    by apply collate_row_Throw in Hs as [-> _].
Qed.

Lemma collate_spec_witness :
  ∃ d, collate [ <["input" := PInt 1]> (<["sentence" := PInt 2]>
                 (<["head" := PInt 3]> (<["output" := PInt 4]>
                 (<["len" := PInt 5]> ∅)))) ] = Return d.
Proof.
  refine (proj2 (proj1 (proj2 (collate_spec _))) _).
  repeat constructor. intros k Hk. apply elem_of_collate_keys in Hk.
  destruct Hk as [->|[->|[->|[->| ->]]]]; by eexists.
Defined.

(** X20: the samples that [load_data] and [__init__] build have no key
    'sentence', so [collate] raises [KeyError] on every non-empty batch of
    samples that [__getitem__] returns from such a dataset. *)
Theorem collate_loaded_samples (lines : list string)
    (loaded : list (gmap string pyval)) (self : SCAN)
    (batch : list (gmap string pyval)) :
  load_data lines = Return loaded →
  init_dataset loaded = Return self →
  batch ≠ [] →
  Forall (λ x, ∃ index, SCAN_getitem self index = Return x) batch →
  collate batch = Throw (Exn KeyError).
Proof.
  intros Hload Hinit Hne Hbatch.
  destruct batch as [|x batch]; [done|]. apply Forall_cons in Hbatch as [[index Hx] _].
  assert (x ∈ dataset self) as Hin.
  { unfold SCAN_getitem in Hx. apply bind_Return_inv in Hx as (k & _ & Hx).
    apply py_index_Return in Hx as [j Hj]. by apply list_elem_of_lookup_2 in Hj. }
  unfold init_dataset in Hinit.
  apply bind_Return_inv in Hinit as (samples & Hs & [= <-]). simpl in Hin.
  apply for_each_Return in Hs. unfold load_data in Hload.
  apply for_each_Return in Hload.
  apply list_elem_of_lookup in Hin as [j Hj].
  destruct (Forall2_lookup_r _ _ _ _ _ Hs Hj) as (d & Hd & Hset).
  destruct (Forall2_lookup_r _ _ _ _ _ Hload Hd) as (line & _ & Hline).
  apply load_line_Return in Hline as (a & cf & outf & input & head & _ & _ & _ & ->).
  apply set_len_Return in Hset as (v & n & _ & _ & ->).
  unfold collate. simpl. reflexivity.
Qed.

Lemma collate_loaded_samples_witness :
  collate [ <["len" := PInt 2]> (sample_dict ["jump"; "twice"] [1%Z; ROOT]
                                   ["I_JUMP"; "I_JUMP"]) ]
  = Throw (Exn KeyError).
Proof.
  refine (collate_loaded_samples ["IN: jump twice OUT: I_JUMP I_JUMP"] _
            {| dataset := [ <["len" := PInt 2]> (sample_dict ["jump"; "twice"]
                              [1%Z; ROOT] ["I_JUMP"; "I_JUMP"]) ] ;
               valid_ids := [0] |} _ _ _ _ _).
  - vm_compute. reflexivity.
  - vm_compute. reflexivity.
  - discriminate.
  - repeat constructor. exists 0%Z. vm_compute. reflexivity.
Defined.

(** ** The data file of a split *)

Lemma string_append_inj (a b c : string) :
  String.append a b = String.append a c → b = c.
Proof. induction a as [|x a IH]; simpl; [done|]. intros [= H]. by apply IH. Qed.

(** X21: [__init__] finds a data file exactly for the splits train, val and
    test and the five subsets it knows, and fails its assertion otherwise;
    the split val reads the file of the split test, and the split train
    never reads the file of the split test. *)
Theorem dataset_filename_spec (data_dir subset split : string) :
  (returns (dataset_filename data_dir subset split) ↔
     split ∈ ["train"; "val"; "test"] ∧
     subset ∈ ["simple"; "length"; "addprim_jump"; "addprim_turn_left";
               "template_around_right"]) ∧
  (¬ returns (dataset_filename data_dir subset split) →
     dataset_filename data_dir subset split = Raise AssertionError) ∧
  dataset_filename data_dir subset "val" = dataset_filename data_dir subset "test" ∧
  (∀ f, dataset_filename data_dir subset "train" = Ok f →
        dataset_filename data_dir subset "test" ≠ Ok f).
Proof.
  split; [|split; [|split]].
  - unfold dataset_filename.
    destruct (decide (split ∈ ["train"; "val"; "test"])) as [Hs|Hs].
    + destruct (decide (subset ∈ ["simple"; "length"])) as [H1|H1].
      { split; [|by eexists]. intros _. split; [done|].
        rewrite !elem_of_cons in *. tauto. }
      destruct (decide (subset = "addprim_jump")) as [->|H2].
      { split; [|by eexists]. intros _. split; [done|].
        rewrite !elem_of_cons. tauto. }
      destruct (decide (subset = "addprim_turn_left")) as [->|H3].
      { split; [|by eexists]. intros _. split; [done|].
        rewrite !elem_of_cons. tauto. }
      destruct (decide (subset = "template_around_right")) as [->|H4].
      { split; [|by eexists]. intros _. split; [done|].
        rewrite !elem_of_cons. tauto. }
      split; [by intros [? ?]|]. intros [_ Hsub].
      rewrite !elem_of_cons in Hsub. rewrite !elem_of_cons in H1.
      apply elem_of_nil in Hsub || tauto.
    + split; [by intros [? ?]|]. tauto.
  - intros Hno. destruct (dataset_filename data_dir subset split) as [f|e] eqn:E.
    + destruct Hno. by exists f.
    + unfold dataset_filename in E.
      repeat match type of E with
             | context [decide ?P] => destruct (decide P)
             end; congruence.
  - reflexivity.
  - intros f Htrain Htest. unfold dataset_filename in Htrain, Htest.
    simpl in Htrain, Htest.
    destruct (decide (subset ∈ ["simple"; "length"])) as [H1|H1].
    { rewrite <- Htest in Htrain. injection Htrain as Htrain.
      rewrite !elem_of_cons, elem_of_nil in H1.
      destruct H1 as [->|[->|[]]]; unfold fstring in Htrain; simpl in Htrain;
        apply string_append_inj in Htrain; discriminate Htrain. }
    destruct (decide (subset = "addprim_jump")) as [->|H2].
    { rewrite <- Htest in Htrain. injection Htrain as Htrain.
      unfold fstring in Htrain; simpl in Htrain.
      apply string_append_inj in Htrain; discriminate Htrain. }
    destruct (decide (subset = "addprim_turn_left")) as [->|H3].
    { rewrite <- Htest in Htrain. injection Htrain as Htrain.
      unfold fstring in Htrain; simpl in Htrain.
      apply string_append_inj in Htrain; discriminate Htrain. }
    destruct (decide (subset = "template_around_right")) as [->|H4];
      [|discriminate Htrain].
    rewrite <- Htest in Htrain. injection Htrain as Htrain.
    unfold fstring in Htrain; simpl in Htrain.
    apply string_append_inj in Htrain; discriminate Htrain.
Qed.

Lemma dataset_filename_spec_witness :
  dataset_filename "data" "length" "test" ≠ Ok "data/length_split/tasks_train_length.txt".
Proof.
  refine (proj2 (proj2 (proj2 (dataset_filename_spec "data" "length" "train"))) _ _).
  vm_compute. reflexivity.
Defined.

(** ** The experiment tracker *)

(** X22: [load_state_dict] on the dict that [state_dict] returns for a
    tracker makes any tracker equal to that one; in general it completes
    exactly when the dict has the keys 'run_id', 'epoch' and 'exp_name', and
    then the tracker holds the three values, whatever it held before and
    whatever else the dict holds. *)
Theorem Tracker_state_dict_round_trip (self other : Tracker)
    (state_dict : gmap string pyval) :
  Tracker_load_state_dict self (Tracker_state_dict other) = (other, None) ∧
  (∀ t, Tracker_load_state_dict self state_dict = (t, None) ↔
        state_dict !! "run_id" = Some (run_id t) ∧
        state_dict !! "epoch" = Some (epoch t) ∧
        state_dict !! "exp_name" = Some (exp_name t)).
Proof.
  split.
  - destruct other as [n r e]. reflexivity.
  - intros [n r e]. unfold Tracker_load_state_dict. simpl. split.
    + intros H.
      destruct (state_dict !! "run_id"); [|done].
      destruct (state_dict !! "epoch"); [|done].
      destruct (state_dict !! "exp_name"); [|done].
      by injection H as -> -> ->.
    + by intros (-> & -> & ->).
Qed.

(** X23: [load_state_dict] raises [KeyError] when one of the three keys is
    missing, and is not atomic: the attributes assigned before the missing
    key is looked up keep their new values. *)
Theorem Tracker_load_state_dict_partial (self t : Tracker)
    (state_dict : gmap string pyval) (e : exception) :
  Tracker_load_state_dict self state_dict = (t, Some e) →
  e = Exn KeyError ∧
  ((state_dict !! "run_id" = None ∧ t = self) ∨
   (∃ r, state_dict !! "run_id" = Some r ∧ state_dict !! "epoch" = None ∧
         t = {| exp_name := exp_name self ; run_id := r ; epoch := epoch self |}) ∨
   (∃ r ep, state_dict !! "run_id" = Some r ∧ state_dict !! "epoch" = Some ep ∧
            state_dict !! "exp_name" = None ∧
            t = {| exp_name := exp_name self ; run_id := r ; epoch := ep |})).
Proof.
  unfold Tracker_load_state_dict. intros H.
  destruct (state_dict !! "run_id") as [r|].
  - destruct (state_dict !! "epoch") as [ep|].
    + destruct (state_dict !! "exp_name") as [n|]; [done|].
      injection H as <- <-. split; [done|]. right. right. by exists r, ep.
    + injection H as <- <-. split; [done|]. right. left. by exists r.
  - injection H as <- <-. split; [done|]. by left.
Qed.

Lemma Tracker_load_state_dict_partial_witness :
  Exn KeyError = Exn KeyError ∧
  (((<["run_id" := PStr "b"]> ∅ : gmap string pyval) !! "run_id" = None ∧
    {| exp_name := PStr "x" ; run_id := PStr "b" ; epoch := PInt 3 |}
    = {| exp_name := PStr "x" ; run_id := PStr "a" ; epoch := PInt 3 |}) ∨
   (∃ r, (<["run_id" := PStr "b"]> ∅ : gmap string pyval) !! "run_id" = Some r ∧
         (<["run_id" := PStr "b"]> ∅ : gmap string pyval) !! "epoch" = None ∧
         {| exp_name := PStr "x" ; run_id := PStr "b" ; epoch := PInt 3 |}
         = {| exp_name := PStr "x" ; run_id := r ; epoch := PInt 3 |}) ∨
   (∃ r ep, (<["run_id" := PStr "b"]> ∅ : gmap string pyval) !! "run_id" = Some r ∧
            (<["run_id" := PStr "b"]> ∅ : gmap string pyval) !! "epoch" = Some ep ∧
            (<["run_id" := PStr "b"]> ∅ : gmap string pyval) !! "exp_name" = None ∧
            {| exp_name := PStr "x" ; run_id := PStr "b" ; epoch := PInt 3 |}
            = {| exp_name := PStr "x" ; run_id := r ; epoch := ep |})).
Proof.
  apply (Tracker_load_state_dict_partial
           {| exp_name := PStr "x" ; run_id := PStr "a" ; epoch := PInt 3 |}).
  vm_compute. reflexivity.
Defined.

(** ** Subsampling *)

Lemma py_take_submseteq {A : Type} (n : Z) (l : list A) : py_take n l ⊆+ l.
Proof. unfold py_take. destruct (decide (0 ≤ n)%Z); apply submseteq_take. Qed.

(** X24: for an int [n_sample], the dataset kept by [__init__] is a
    sub-multiset of the loaded one; with [n_sample] 1 it is the whole loaded
    dataset in some order, not one sample; with [n_sample] at least 2 it has
    [n_sample] samples or all of them if there are fewer; with a negative
    [n_sample] it is empty; with [None] or 0 nothing is shuffled or
    dropped. *)
Theorem subsample_spec {A : Type} (n_sample : option Z) (loaded out : list A) :
  subsample n_sample loaded out →
  out ⊆+ loaded ∧
  (n_sample = None ∨ n_sample = Some 0%Z → out = loaded) ∧
  (n_sample = Some 1%Z → out ≡ₚ loaded) ∧
  (∀ n, n_sample = Some n → (2 ≤ n)%Z →
        length out = Z.to_nat n `min` length loaded) ∧
  (∀ n, n_sample = Some n → (n < 0)%Z → out = []).
Proof.
  unfold subsample. intros H. destruct n_sample as [n|].
  - destruct (decide (n = 0%Z)) as [->|Hn].
    + subst out. split; [done|]. split; [done|]. split; [done|].
      split; intros m [= <-]; lia.
    + destruct H as (shuffled & Hperm & ->).
      split; [rewrite <- Hperm; apply py_take_submseteq|].
      split; [intros [?|[= ->]]; done|]. split; [|split].
      * intros [= ->]. rewrite <- Hperm. unfold py_take.
        destruct (decide (1 ≤ 1)%Z); [|lia].
        destruct (decide (0 ≤ Z.of_nat (length loaded) * 1)%Z); [|lia].
        rewrite take_ge; [done|]. rewrite Hperm. lia.
      * intros m [= <-] Hm. destruct (decide (n ≤ 1)%Z); [lia|].
        unfold py_take. destruct (decide (0 ≤ n)%Z); [|lia].
        by rewrite length_take, Hperm.
      * intros m [= <-] Hm. destruct (decide (n ≤ 1)%Z); [|lia].
        unfold py_take.
        destruct (decide (0 ≤ Z.of_nat (length loaded) * n)%Z) as [Hge|Hlt].
        -- assert (length loaded = 0) as Hlen by nia.
           rewrite <- Hperm in Hlen. apply length_zero_iff_nil in Hlen as ->.
           by rewrite take_nil.
        -- replace (length shuffled - Z.to_nat (- (Z.of_nat (length loaded) * n)))
             with 0; [apply take_0|]. rewrite Hperm. nia.
  - subst out. split; [done|]. split; [done|]. split; [done|].
    split; intros m [= ].
Qed.

Lemma subsample_spec_witness :
  [3; 1; 2] ⊆+ [1; 2; 3] ∧
  (Some 1%Z = None ∨ Some 1%Z = Some 0%Z → [3; 1; 2] = [1; 2; 3]) ∧
  (Some 1%Z = Some 1%Z → [3; 1; 2] ≡ₚ [1; 2; 3]) ∧
  (∀ n, Some 1%Z = Some n → (2 ≤ n)%Z →
        length [3; 1; 2] = Z.to_nat n `min` length [1; 2; 3]) ∧
  (∀ n, Some 1%Z = Some n → (n < 0)%Z → [3; 1; 2] = []).
Proof.
  apply (subsample_spec (Some 1%Z) [1; 2; 3] [3; 1; 2]).
  simpl. exists [3; 1; 2]. split; [|reflexivity].
  apply (bool_decide_unpack _). vm_compute. exact I.
Defined.

(** ** Logging *)

Lemma string_append_nil_r (s : string) : String.append s EmptyString = s.
Proof.
  induction s as [|c s IH]; [done|].
  change (String c (String.append s EmptyString) = String c s). by rewrite IH.
Qed.

Lemma result_key_inj (mode key1 key2 : string) :
  fstring [mode; "/"; key1] = fstring [mode; "/"; key2] → key1 = key2.
Proof.
  unfold fstring. simpl. intros H. apply string_append_inj in H.
  injection H as H. by rewrite !string_append_nil_r in H.
Qed.

Lemma lr_key_inj (i j : nat) :
  fstring ["lr/group_"; pretty i] = fstring ["lr/group_"; pretty j] → i = j.
Proof.
  unfold fstring. intros H. apply (string_append_inj "lr/group_") in H.
  simpl in H. rewrite !string_append_nil_r in H. by apply pretty_nat_inj in H.
Qed.

Lemma train_key_not_lr_key (key : string) (i : nat) :
  fstring ["train"; "/"; key] ≠ fstring ["lr/group_"; pretty i].
Proof. unfold fstring. simpl. discriminate. Qed.

Section log_dicts.
Context {V : Type}.
Implicit Types (items : list (string * V)) (lrs : list V) (d : gmap string V).

Lemma log_results_other (mode : string) items d (k : string) :
  (∀ key, key ∈ items.*1 → fstring [mode; "/"; key] ≠ k) →
  log_results mode items d !! k = d !! k.
Proof.
  revert d. induction items as [|[key val] items IH]; intros d Hk; [done|].
  simpl. rewrite IH.
  - apply lookup_insert_ne, Hk. simpl. by left.
  - intros key' Hkey'. apply Hk. simpl. by right.
Qed.

Lemma log_results_lookup (mode : string) items d (key : string) (val : V) :
  NoDup items.*1 → (key, val) ∈ items →
  log_results mode items d !! fstring [mode; "/"; key] = Some val.
Proof.
  revert d. induction items as [|[key' val'] items IH]; intros d Hnd Hin;
    [by apply elem_of_nil in Hin|].
  simpl in *. apply NoDup_cons in Hnd as [Hnot Hnd].
  apply elem_of_cons in Hin as [[= -> ->]|Hin].
  - rewrite log_results_other; [apply lookup_insert_eq|].
    intros k Hk Heq. apply result_key_inj in Heq as ->. done.
  - by apply IH.
Qed.

Lemma log_results_size (mode : string) items d :
  NoDup items.*1 →
  (∀ key, key ∈ items.*1 → d !! fstring [mode; "/"; key] = None) →
  size (log_results mode items d) = length items + size d.
Proof.
  revert d. induction items as [|[key val] items IH]; intros d Hnd Hfree; [done|].
  simpl in *. apply NoDup_cons in Hnd as [Hnot Hnd]. rewrite IH; [|done|].
  - rewrite map_size_insert_None; [lia|]. apply Hfree. by left.
  - intros key' Hkey'. rewrite lookup_insert_ne.
    + apply Hfree. by right.
    + intros Heq. apply result_key_inj in Heq as ->. done.
Qed.

Lemma log_lrs_other lrs (i : nat) d (k : string) :
  (∀ j, j < length lrs → fstring ["lr/group_"; pretty (i + j)] ≠ k) →
  log_lrs i lrs d !! k = d !! k.
Proof.
  revert i d. induction lrs as [|lr lrs IH]; intros i d Hk; [done|].
  simpl. rewrite IH.
  - apply lookup_insert_ne. specialize (Hk 0). rewrite Nat.add_0_r in Hk.
    apply Hk. simpl. lia.
  - intros j Hj. replace (S i + j) with (i + S j) by lia. apply Hk. simpl. lia.
Qed.

Lemma log_lrs_lookup lrs (i j : nat) d (lr : V) :
  lrs !! j = Some lr →
  log_lrs i lrs d !! fstring ["lr/group_"; pretty (i + j)] = Some lr.
Proof.
  revert i j d. induction lrs as [|lr' lrs IH]; intros i j d Hj; [done|].
  destruct j as [|j]; simpl in *.
  - injection Hj as ->. rewrite log_lrs_other.
    + rewrite Nat.add_0_r. apply lookup_insert_eq.
    + intros j _ Heq. apply lr_key_inj in Heq. lia.
  - replace (i + S j) with (S i + j) by lia. by apply IH.
Qed.

Lemma log_lrs_size lrs (i : nat) d :
  (∀ j, j < length lrs → d !! fstring ["lr/group_"; pretty (i + j)] = None) →
  size (log_lrs i lrs d) = length lrs + size d.
Proof.
  revert i d. induction lrs as [|lr lrs IH]; intros i d Hfree; [done|].
  simpl. rewrite IH.
  - rewrite map_size_insert_None; [lia|].
    specialize (Hfree 0). rewrite Nat.add_0_r in Hfree. apply Hfree. simpl. lia.
  - intros j Hj. rewrite lookup_insert_ne.
    + replace (S i + j) with (i + S j) by lia. apply Hfree. simpl. lia.
    + intros Heq. apply lr_key_inj in Heq. lia.
Qed.
End log_dicts.

(** X25: in debug mode [log] logs nothing; otherwise the dict it hands to
    [accelerator.log] holds every result under ["{mode}/{key}"] and, in mode
    train, every learning rate under ["lr/group_{i}"], and no entry
    overwrites another: the dict has one entry for each result and each
    learning rate. *)
Theorem log_spec {V : Type} (items : list (string * V)) (mode : string)
    (lrs : list V) :
  NoDup items.*1 →
  log true items mode lrs = None ∧
  ∃ d, log false items mode lrs = Some d ∧
       (∀ key val, (key, val) ∈ items →
                   d !! fstring [mode; "/"; key] = Some val) ∧
       (mode = "train" →
        ∀ i lr, lrs !! i = Some lr →
                d !! fstring ["lr/group_"; pretty i] = Some lr) ∧
       size d = length items + (if decide (mode = "train") then length lrs else 0).
Proof.
  intros Hnd. split; [done|]. unfold log. eexists. split; [reflexivity|].
  destruct (decide (mode = "train")) as [->|Hmode].
  - split; [|split].
    + intros key val Hin. rewrite log_lrs_other; [by apply log_results_lookup|].
      intros j _ Heq. symmetry in Heq. by apply train_key_not_lr_key in Heq.
    + intros _ i lr Hi. by apply (log_lrs_lookup lrs 0 i).
    + rewrite log_lrs_size, log_results_size, map_size_empty; [lia|done|done|].
      intros j _. rewrite log_results_other; [done|].
      intros key _. apply train_key_not_lr_key.
  - split; [|split; [done|]].
    + intros key val Hin. by apply log_results_lookup.
    + rewrite log_results_size, map_size_empty; [lia|done|done].
Qed.

Lemma log_spec_witness :
  log true [("loss", 1); ("acc", 2)] "train" [3; 4] = None ∧
  ∃ d, log false [("loss", 1); ("acc", 2)] "train" [3; 4] = Some d ∧
       (∀ key val, (key, val) ∈ [("loss", 1); ("acc", 2)] →
                   d !! fstring ["train"; "/"; key] = Some val) ∧
       ("train" = "train" →
        ∀ i lr, [3; 4] !! i = Some lr →
                d !! fstring ["lr/group_"; pretty i] = Some lr) ∧
       size d = length [("loss", 1); ("acc", 2)]
                + (if decide ("train" = "train") then length [3; 4] else 0).
Proof.
  apply (log_spec [("loss", 1); ("acc", 2)] "train" [3; 4]).
  apply (bool_decide_unpack _). vm_compute. exact I.
Defined.
